(** * Service-discovery layer of kit: registrars, subscriber, static publisher

    A shallow embedding of the Go sources
    - [sd/periodic_registrar.go]           (module [Sd])
    - [sd/eureka/client.go], its test double [mockConn],
      [sd/eureka/registrar.go], [sd/eureka/subscriber.go]  (module [Eureka])
    - [loadbalancer/static/publisher.go]   (module [Static])

    Go values are modelled as follows.  An [error] is the message it
    carries and the Go interface value [nil] is [None].  A goroutine is a
    program counter in the world it shares with its creator; the scheduler
    and the select statement's choice are an explicit sequence of events.
    Channels are numbered in allocation order, a nil channel is [None].

    The packages [log] and [sd/cache] are not among the sources; what is
    needed of them is modelled from the spec (modules [Log], [Cache] and
    [CacheRun]). *)

From stdpp Require Import base option list strings gmap pretty.
From Stdlib Require Import ZArith Lia.

Open Scope Z_scope.
Open Scope string_scope.
Open Scope list_scope.

(** ** Go preliminaries *)

Module Go.

(** [errors.New msg] *)
Definition error : Type := string.

(** The outcome of running a statement sequence: it completes with a
    value, or the goroutine panics with a runtime error. *)
Inductive outcome (A : Type) : Type :=
| Done (a : A)
| Panic (msg : string).
Arguments Done {A} a.
Arguments Panic {A} msg.

Definition bind {A B} (m : outcome A) (k : A -> outcome B) : outcome B :=
  match m with
  | Done a => k a
  | Panic msg => Panic msg
  end.

(** Go's [int] on the 64-bit targets: arithmetic wraps around. *)
Definition wrap_int (z : Z) : Z := (z + 2 ^ 63) mod 2 ^ 64 - 2 ^ 63.

(** Channels that carry no data ([chan struct{}]) and are only ever
    closed: the heap records how many were made and which are closed. *)
Definition chan : Type := nat.

Record chans : Type := {
  made : nat;
  closed : gset chan
}.

Definition no_chans : chans := {| made := 0%nat; closed := ∅ |}.

(** [make(chan struct{})] *)
Definition make_chan (h : chans) : chan * chans :=
  (made h, {| made := S (made h); closed := closed h |}).

Definition is_closed (h : chans) (c : chan) : bool :=
  bool_decide (c ∈ closed h).

(** [close(c)]: closing a nil channel or a closed channel panics. *)
Definition close (c : option chan) (h : chans) : outcome chans :=
  match c with
  | None => Panic "close of nil channel"
  | Some c =>
      if is_closed h c then Panic "close of closed channel"
      else Done {| made := made h; closed := {[ c ]} ∪ closed h |}
  end.

(** A receive from [c] in a select can proceed when [c] is closed;
    a receive from a nil channel never can. *)
Definition recv_ready (h : chans) (c : option chan) : bool :=
  match c with
  | None => false
  | Some c => is_closed h c
  end.

End Go.

Notation "'let*' x ':=' m 'in' k" := (Go.bind m (fun x => k))
  (at level 10, x name, m at level 200, k at level 200).

(** ** The logger *)

Module Log.

(** A logged value: the sources log string constants, instance
    addresses and errors. *)
Inductive value : Type :=
| Str (s : string)
| Err (e : Go.error).

Definition keyvals : Type := list value.

(** Modelled from the spec: the package [log] is not among the sources.
    The spec has the Logger as "a structured key-value sink for
    observability; purely a side channel, never consulted for control
    flow".  The sink is the list of records written so far; a context
    logger puts its own key-values in front of every record. *)
Record Logger : Type := {
  context : keyvals;
  records : list keyvals
}.

(** Modelled from the spec: a logger that has written nothing yet
    ([log.NewNopLogger] in the tests; its records are kept here). *)
Definition NewNopLogger : Logger := {| context := []; records := [] |}.

(** Modelled from the spec: [log.NewContext(l).With(kvs...)], the same sink
    with [kvs] added to the context. *)
Definition With (l : Logger) (kvs : keyvals) : Logger :=
  {| context := context l ++ kvs; records := records l |}.

(** Modelled from the spec: [l.Log(kvs...)] writes one record to the sink. *)
Definition Log (l : Logger) (kvs : keyvals) : Logger :=
  {| context := context l; records := records l ++ [context l ++ kvs] |}.

End Log.

(** ** loadbalancer/static: NewPublisher *)

Module Static.
Section WithEndpoint.

(** [endpoint.Endpoint]: a callable, opaque here. *)
Variable Endpoint : Type.

(** [loadbalancer.Factory]: [func(instance string) (endpoint.Endpoint, error)] *)
Definition Factory : Type := string -> Endpoint + Go.error.

(** [fixed.Publisher] holds the slice it was given. *)
Record Publisher : Type := { endpoints : list Endpoint }.

(** The body of [for _, instance := range instances]: the accumulator is
    the slice [endpoints] and the logger. *)
Fixpoint range_instances (factory : Factory) (instances : list string)
    (acc : list Endpoint) (logger : Log.Logger) : list Endpoint * Log.Logger :=
  match instances with
  | [] => (acc, logger)
  | instance :: rest =>
      match factory instance with
      | inr err =>
          (* _ = logger.Log("instance", instance, "err", err); continue *)
          range_instances factory rest acc
            (Log.Log logger [Log.Str "instance"; Log.Str instance;
                             Log.Str "err"; Log.Err err])
      | inl e =>
          (* endpoints = append(endpoints, e) *)
          range_instances factory rest (acc ++ [e]) logger
      end
  end.

Definition NewPublisher (instances : list string) (factory : Factory)
    (logger : Log.Logger) : Publisher * Log.Logger :=
  let logger := Log.With logger [Log.Str "component"; Log.Str "Fixed Publisher"] in
  let '(endpoints, logger) := range_instances factory instances [] logger in
  ({| endpoints := endpoints |}, logger).

(** What the batch should contain: the endpoint of every instance the
    factory accepts, in the order of the instances. *)
Definition made_endpoints (factory : Factory) (instances : list string)
    : list Endpoint :=
  omap (fun i => match factory i with inl e => Some e | inr _ => None end)
       instances.

(** The records of the instances the factory rejects. *)
Definition failure_records (ctx : Log.keyvals) (factory : Factory)
    (instances : list string) : list Log.keyvals :=
  omap (fun i => match factory i with
                 | inl _ => None
                 | inr err => Some (ctx ++ [Log.Str "instance"; Log.Str i;
                                            Log.Str "err"; Log.Err err])
                 end) instances.

End WithEndpoint.
End Static.

(** ** hudl/fargo: the data the eureka client exchanges with the registry *)

Module Fargo.

Inductive StatusType : Type := UP | DOWN | STARTING | OUTOFSERVICE | UNKNOWN.

Inductive DataCenterName : Type := Amazon | MyOwn.

Record LeaseInfo : Type := {
  RenewalIntervalInSecs : Z;
  DurationInSecs : Z
}.

(** The fields of [fargo.Instance] that [serviceToInstance] sets; the
    metadata is the key/value view that [SetMetadataString] writes. *)
Record Instance : Type := {
  InstanceID : string;
  HostName : string;
  App : string;
  IPAddr : string;
  VipAddress : string;
  SecureVipAddress : string;
  Status : StatusType;
  Port : Z;
  DataCenterInfo : DataCenterName;
  Lease : LeaseInfo;
  Metadata : gmap string string
}.

Record Application : Type := { Instances : list Instance }.

(** [fargo.AppUpdate]: an application, or the error of the poll. *)
Record AppUpdate : Type := {
  UpdApp : Application;
  UpdErr : option Go.error
}.

Definition SetMetadataString (key value : string) (i : Instance) : Instance :=
  {| InstanceID := InstanceID i; HostName := HostName i; App := App i;
     IPAddr := IPAddr i; VipAddress := VipAddress i;
     SecureVipAddress := SecureVipAddress i; Status := Status i;
     Port := Port i; DataCenterInfo := DataCenterInfo i; Lease := Lease i;
     Metadata := <[ key := value ]> (Metadata i) |}.

End Fargo.

(** ** sd/cache *)

Module Cache.

(** What a subscriber needs of the cache it embeds.  [sd.Factory] is
    [func(instance string) (endpoint.Endpoint, io.Closer, error)]. *)
Class Ops (Endpoint Closer Cache : Type) : Type := {
  New : (string -> Endpoint * option Closer + Go.error) -> Log.Logger -> Cache;
  Update : list string -> Cache -> Cache;
  Endpoints : Cache -> list Endpoint
}.

Section FromSpec.

Variables Endpoint Closer : Type.

(** [io.Closer.Close] *)
Variable Close : Closer -> option Go.error.

Definition Factory : Type := string -> Endpoint * option Closer + Go.error.

(** Modelled from the spec: "CacheEntry: { endpoint: Endpoint, handle:
    ReleasableResource? }". *)
Record CacheEntry : Type := {
  endpoint : Endpoint;
  handle : option Closer
}.

(** Modelled from the spec: the package [sd/cache] is not among the
    sources.  The spec has the Cache as a mapping from instance address to
    CacheEntry, created empty, with the factory and the logger it was
    given; [released] lists the handles it has released. *)
Record Cache : Type := {
  factory : Factory;
  logger : Log.Logger;
  entries : gmap string CacheEntry;
  released : list Closer
}.

(** Modelled from the spec: "Cache is created empty". *)
Definition spec_New (f : Factory) (l : Log.Logger) : Cache :=
  {| factory := f; logger := l; entries := ∅; released := [] |}.

(** Modelled from the spec: "for each address in toAdd, calls
    factory(address); on error, the address is skipped for this Update
    (logged via the side-channel logger)". *)
Definition add_address (c : Cache) (address : string) : Cache :=
  match factory c address with
  | inl (e, h) =>
      {| factory := factory c; logger := logger c;
         entries := <[ address := {| endpoint := e; handle := h |} ]> (entries c);
         released := released c |}
  | inr err =>
      {| factory := factory c;
         logger := Log.Log (logger c)
                     [Log.Str "instance"; Log.Str address; Log.Str "err"; Log.Err err];
         entries := entries c; released := released c |}
  end.

(** Modelled from the spec: "for each address in toRemove, releases its
    handle (failures logged, not propagated) and deletes the entry". *)
Definition remove_address (c : Cache) (address : string) : Cache :=
  match entries c !! address with
  | None => c
  | Some ce =>
      {| factory := factory c;
         logger :=
           match handle ce ≫= Close with
           | Some err => Log.Log (logger c) [Log.Str "err"; Log.Err err]
           | None => logger c
           end;
         entries := delete address (entries c);
         released := released c ++ option_list (handle ce) |}
  end.

(** Modelled from the spec: "Update(addresses) computes toAdd = addresses -
    currentKeys, toRemove = currentKeys - addresses"; entries in both are
    left untouched. *)
Definition spec_Update (addresses : list string) (c : Cache) : Cache :=
  let currentKeys := (map_to_list (entries c)).*1 in
  let toAdd := filter (fun a => a ∉ currentKeys) (remove_dups addresses) in
  let toRemove := filter (fun a => a ∉ addresses) currentKeys in
  foldl remove_address (foldl add_address c toAdd) toRemove.

(** Modelled from the spec: "Endpoints() returns the current immutable
    snapshot", the endpoints of the entries of the mapping. *)
Definition spec_Endpoints (c : Cache) : list Endpoint :=
  endpoint <$> (map_to_list (entries c)).*2.

(** Modelled from the spec: the cache of the spec as an implementation of
    the interface above. *)
Definition spec_Ops : Ops Endpoint Closer Cache :=
  {| New := spec_New; Update := spec_Update; Endpoints := spec_Endpoints |}.

End FromSpec.
End Cache.

(** ** sd/eureka: the registry client *)

Module Eureka.

Record Service : Type := {
  ID : string;
  Name : string;
  Address : string;
  Port : Z;
  Metadata : gmap string string;
  TTL : Z   (* time.Duration: nanoseconds *)
}.

(** [fargoConnection], the part of fargo the client uses; [C] is the state
    of the connection (and of the registry behind it), threaded through
    every call.  [ScheduleAppUpdates] returns a channel: the values
    received from it are the [CaseUpdate] events of [WatchEntries]. *)
Class fargoConnection (C : Type) : Type := {
  GetApp : string -> C -> (Fargo.Application + Go.error) * C;
  RegisterInstance : Fargo.Instance -> C -> option Go.error * C;
  DeregisterInstance : Fargo.Instance -> C -> option Go.error * C;
  HeartBeatInstance : Fargo.Instance -> C -> option Go.error * C
}.

(** [fmt.Sprintf("%s:%d", instance.HostName, instance.Port)] per instance *)
Definition appToEntries (app : Fargo.Application) : list string :=
  map (fun instance =>
         Fargo.HostName instance +:+ ":" +:+ pretty (Fargo.Port instance))
      (Fargo.Instances app).

Section Client.

(** [int32(d.Seconds())] goes through float64 and [json.Marshal] is the
    standard library's: both are taken as given. *)
Variable seconds_int32 : Z -> Z.
Variable json_Marshal : gmap string string -> string + Go.error.

Definition serviceToInstance (s : Service) : Fargo.Instance :=
  let instance :=
    {| Fargo.InstanceID := ID s;
       Fargo.App := Name s;
       Fargo.HostName := Address s;
       Fargo.IPAddr := Address s;
       Fargo.VipAddress := Address s;
       Fargo.SecureVipAddress := Address s;
       Fargo.Port := Port s;
       Fargo.Status := Fargo.UP;
       Fargo.DataCenterInfo := Fargo.MyOwn;
       Fargo.Lease :=
         if bool_decide (0 < TTL s) then
           {| Fargo.DurationInSecs := seconds_int32 (TTL s);
              Fargo.RenewalIntervalInSecs := seconds_int32 (TTL s) |}
         else
           {| Fargo.DurationInSecs := 0; Fargo.RenewalIntervalInSecs := 0 |};
       Fargo.Metadata := ∅ |} in
  let instance := Fargo.SetMetadataString "instanceId" (ID s) instance in
  match json_Marshal (Metadata s) with
  | inl data => Fargo.SetMetadataString "metadata" data instance
  | inr _ => instance
  end.

Context {C : Type} `{!fargoConnection C}.

(** [client] holds only the connection: its state is [C]. *)
Definition client_GetEntries (name : string) (c : C)
    : (list string + Go.error) * C :=
  match GetApp name c with
  | (inr err, c) => (inr err, c)
  | (inl app, c) => (inl (appToEntries app), c)
  end.

(** The outcome of one round of the select statement of [WatchEntries]. *)
Inductive watch_case : Type :=
| CaseDone                         (* case <-done *)
| CaseUpdate (u : Fargo.AppUpdate) (* case u := <-updates *).

(** What [WatchEntries] sends on [entries] for the update [u]. *)
Definition forwarded (u : Fargo.AppUpdate) : list string :=
  match Fargo.UpdErr u with
  | Some _ => []                            (* entries <- []string{} *)
  | None => appToEntries (Fargo.UpdApp u)   (* entries <- appToEntries(u.App) *)
  end.

(** [WatchEntries] along a sequence of select outcomes: the values it
    sends on [entries], in order, until it returns on [done]. *)
Fixpoint client_WatchEntries (cases : list watch_case) : list (list string) :=
  match cases with
  | [] => []
  | CaseDone :: _ => []
  | CaseUpdate u :: cases => forwarded u :: client_WatchEntries cases
  end.

Definition client_Register (service : Service) (c : C) : option Go.error * C :=
  let instance := serviceToInstance service in
  match client_GetEntries (Name service) c with
  | (inl _, c) =>
      (* c.conn.HeartBeatInstance(instance); return nil *)
      let '(_, c) := HeartBeatInstance instance c in
      (None, c)
  | (inr _, c) => RegisterInstance instance c
  end.

Definition client_Deregister (service : Service) (c : C) : option Go.error * C :=
  DeregisterInstance (serviceToInstance service) c.

End Client.

(** *** The connection of the tests: [mockConn] *)

Record registryEntry : Type := {
  instance : Fargo.Instance;
  heartbeats : Z
}.

Record mockConn : Type := { registry : list registryEntry }.

Definition newMockConn : mockConn := {| registry := [] |}.

(** [mc.entry]: the first entry with the host name, with its index;
    [None] stands for the result [(-1, nil)]. *)
Fixpoint entry_from (idx : nat) (reg : list registryEntry) (i : Fargo.Instance)
    : option (nat * registryEntry) :=
  match reg with
  | [] => None
  | e :: reg =>
      if bool_decide (Fargo.HostName (instance e) = Fargo.HostName i)
      then Some (idx, e)
      else entry_from (S idx) reg i
  end.

Definition entry (mc : mockConn) (i : Fargo.Instance)
    : option (nat * registryEntry) :=
  entry_from 0 (registry mc) i.

Definition instances (mc : mockConn) (name : string) : list Fargo.Instance :=
  map instance
      (filter (fun e => Fargo.App (instance e) = name) (registry mc)).

Definition mock_GetApp (name : string) (mc : mockConn)
    : (Fargo.Application + Go.error) * mockConn :=
  match instances mc name with
  | [] => (inr "App not registered", mc)
  | found => (inl {| Fargo.Instances := found |}, mc)
  end.

Definition mock_RegisterInstance (i : Fargo.Instance) (mc : mockConn)
    : option Go.error * mockConn :=
  match entry mc i with
  | Some _ => (Some "Instance already registerd", mc)
  | None =>
      (None, {| registry := registry mc ++ [{| instance := i; heartbeats := 0 |}] |})
  end.

Definition mock_DeregisterInstance (i : Fargo.Instance) (mc : mockConn)
    : option Go.error * mockConn :=
  match entry mc i with
  | None => (Some "Instance not registered", mc)
  | Some (idx, _) =>
      (None, {| registry := take idx (registry mc) ++ drop (S idx) (registry mc) |})
  end.

Definition mock_HeartBeatInstance (i : Fargo.Instance) (mc : mockConn)
    : option Go.error * mockConn :=
  match entry mc i with
  | None => (Some "Instance not registered", mc)
  | Some (idx, e) =>
      (* e.heartbeats++ through the pointer stored in the registry *)
      (None, {| registry :=
                 <[ idx := {| instance := instance e;
                              heartbeats := Go.wrap_int (heartbeats e + 1) |} ]>
                 (registry mc) |})
  end.

#[global] Instance mockConn_fargoConnection : fargoConnection mockConn := {
  GetApp := mock_GetApp;
  RegisterInstance := mock_RegisterInstance;
  DeregisterInstance := mock_DeregisterInstance;
  HeartBeatInstance := mock_HeartBeatInstance
}.

(** *** registrar.go *)

(** The interface [Client] as the registrar sees it; [K] is the state of
    the client.  (The subscriber uses [WatchEntries], see below.) *)
Class Client (K : Type) : Type := {
  Client_GetEntries : string -> K -> (list string + Go.error) * K;
  Client_Register : Service -> K -> option Go.error * K;
  Client_Deregister : Service -> K -> option Go.error * K
}.

#[global] Instance client_Client (seconds_int32 : Z -> Z)
    (json_Marshal : gmap string string -> string + Go.error)
    {C : Type} `{!fargoConnection C} : Client C := {
  Client_GetEntries := client_GetEntries;
  Client_Register := client_Register seconds_int32 json_Marshal;
  Client_Deregister := client_Deregister seconds_int32 json_Marshal
}.

Section Registrar.

Context {K : Type} `{!Client K}.

Record registrar : Type := {
  r_client : K;
  r_service : Service;
  r_logger : Log.Logger
}.

Definition NewRegistrar (service : Service) (client : K) (logger : Log.Logger)
    : registrar :=
  {| r_service := service; r_client := client; r_logger := logger |}.

(** [Register] and [Deregister] have no results: they return [tt] and the
    registrar with the client and the logger as the call left them. *)
Definition registrar_Register (r : registrar) : unit * registrar :=
  match Client_Register (r_service r) (r_client r) with
  | (Some err, k) =>
      (tt, {| r_client := k; r_service := r_service r;
              r_logger := Log.Log (r_logger r) [Log.Str "err"; Log.Err err] |})
  | (None, k) =>
      (tt, {| r_client := k; r_service := r_service r;
              r_logger := Log.Log (r_logger r) [Log.Str "action"; Log.Str "register"] |})
  end.

Definition registrar_Deregister (r : registrar) : unit * registrar :=
  match Client_Deregister (r_service r) (r_client r) with
  | (Some err, k) =>
      (tt, {| r_client := k; r_service := r_service r;
              r_logger := Log.Log (r_logger r) [Log.Str "err"; Log.Err err] |})
  | (None, k) =>
      (tt, {| r_client := k; r_service := r_service r;
              r_logger := Log.Log (r_logger r) [Log.Str "action"; Log.Str "deregister"] |})
  end.

End Registrar.

(** *** subscriber.go *)

Section Subscriber.

Context {Endpoint Closer Cache : Type} `{!Cache.Ops Endpoint Closer Cache}.

(** The field [client] is not kept: the subscriber uses it only to start
    [WatchEntries], whose sends reach the loop as [Deliver] events. *)
Record subscriber : Type := {
  name : string;
  cache : Cache;
  quitc : option Go.chan
}.

(** Where the goroutine of [s.loop()] stands. *)
Inductive loop_pc : Type :=
| LoopStart                      (* spawned, [loop] not yet entered *)
| LoopSelect                     (* at [for]: about to evaluate the select *)
| LoopWait (q : option Go.chan)  (* in the select; [s.quitc] was read as [q] *)
| LoopReturned                   (* returned; the deferred close(entries) ran *).

(** Where the goroutine of [s.client.WatchEntries] stands; [done] is the
    value [s.quitc] had when the go statement evaluated its arguments. *)
Inductive watch_pc : Type :=
| WatchNone
| Watching (done : option Go.chan)
| WatchReturned.

Record world : Type := {
  sub : subscriber;
  heap : Go.chans;
  loop : loop_pc;
  watch : watch_pc
}.

Definition set_sub (w : world) (s : subscriber) : world :=
  {| sub := s; heap := heap w; loop := loop w; watch := watch w |}.

Definition set_loop (w : world) (l : loop_pc) : world :=
  {| sub := sub w; heap := heap w; loop := l; watch := watch w |}.

Definition set_watch (w : world) (t : watch_pc) : world :=
  {| sub := sub w; heap := heap w; loop := loop w; watch := t |}.

Definition set_cache (s : subscriber) (c : Cache) : subscriber :=
  {| name := name s; cache := c; quitc := quitc s |}.

Definition NewSubscriber (name : string)
    (factory : string -> Endpoint * option Closer + Go.error)
    (logger : Log.Logger) : world :=
  let '(q, h) := Go.make_chan Go.no_chans in
  let s := {| name := name; cache := Cache.New factory logger; quitc := Some q |} in
  (* s.cache.Update([]string{}) *)
  let s := set_cache s (Cache.Update [] (cache s)) in
  (* go s.loop() *)
  {| sub := s; heap := h; loop := LoopStart; watch := WatchNone |}.

Definition subscriber_Endpoints (s : subscriber)
    : list Endpoint * option Go.error :=
  (Cache.Endpoints (cache s), None).

Definition subscriber_Stop (w : world) : Go.outcome world :=
  match quitc (sub w) with
  | None => Go.Done w
  | Some q =>
      let* h := Go.close (Some q) (heap w) in
      Go.Done {| sub := {| name := name (sub w); cache := cache (sub w);
                           quitc := None |};
                 heap := h; loop := loop w; watch := watch w |}
  end.

(** What the scheduler, the select statements and the backend decide. *)
Inductive event : Type :=
| RunLoop                          (* the loop goroutine runs up to its next select *)
| LoopQuit                         (* the loop's select takes [case <-s.quitc] *)
| Deliver (u : Fargo.AppUpdate)    (* the backend pushes [u]: [WatchEntries] forwards
                                      it and the loop takes [case e := <-entries] *)
| WatchQuit                        (* the select of [WatchEntries] takes [case <-done] *)
| CallStop                         (* the owner calls [s.Stop()] *).

(** One step; [None] when the event cannot happen in [w]. *)
Definition step (e : event) (w : world) : option (Go.outcome world) :=
  match e with
  | RunLoop =>
      match loop w with
      | LoopStart =>
          (* entries := make(chan []string); defer close(entries);
             go s.client.WatchEntries(s.name, entries, s.quitc) *)
          Some (Go.Done {| sub := sub w; heap := heap w; loop := LoopSelect;
                           watch := Watching (quitc (sub w)) |})
      | LoopSelect => Some (Go.Done (set_loop w (LoopWait (quitc (sub w)))))
      | _ => None
      end
  | LoopQuit =>
      match loop w with
      | LoopWait q =>
          if Go.recv_ready (heap w) q then Some (Go.Done (set_loop w LoopReturned))
          else None
      | _ => None
      end
  | Deliver u =>
      match watch w, loop w with
      | Watching _, LoopWait _ =>
          (* s.cache.Update(e) *)
          Some (Go.Done
                  (set_loop
                     (set_sub w (set_cache (sub w)
                                   (Cache.Update (forwarded u) (cache (sub w)))))
                     LoopSelect))
      | Watching _, LoopReturned => Some (Go.Panic "send on closed channel")
      | _, _ => None
      end
  | WatchQuit =>
      match watch w with
      | Watching d =>
          if Go.recv_ready (heap w) d then Some (Go.Done (set_watch w WatchReturned))
          else None
      | _ => None
      end
  | CallStop => Some (subscriber_Stop w)
  end.

(** A schedule: events that cannot happen are passed over. *)
Fixpoint run (sched : list event) (w : world) : Go.outcome world :=
  match sched with
  | [] => Go.Done w
  | e :: sched =>
      match step e w with
      | None => run sched w
      | Some o => let* w := o in run sched w
      end
  end.

(** The states a subscriber can be in: made by the constructor, then any
    steps that do not panic. *)
Inductive reachable : world -> Prop :=
| reach_new name factory logger : reachable (NewSubscriber name factory logger)
| reach_step w e w' :
    reachable w -> step e w = Some (Go.Done w') -> reachable w'.

(** The loop goroutine can still leave through [case <-s.quitc]. *)
Definition loop_can_quit (w : world) : Prop :=
  exists sched w', run sched w = Go.Done w' /\ loop w' = LoopReturned.

End Subscriber.

(** [testService] of the tests. *)
Definition testService (name addr : string) (port : Z) : Service :=
  {| ID := "id"; Name := name; Address := addr; Port := port;
     Metadata := {[ "key" := "value" ]}; TTL := 987 * 1000000000 |}.

End Eureka.

(** ** sd: the periodic registrar *)

Module Sd.

(** The interface [Registrar]: two methods without results; [R] is the
    state of the implementation. *)
Class Registrar (R : Type) : Type := {
  Register : R -> R;
  Deregister : R -> R
}.

(** A registrar that counts its calls, as the generated test doubles do. *)
Record callCounter : Type := {
  registerCalls : nat;
  deregisterCalls : nat
}.

#[global] Instance callCounter_Registrar : Registrar callCounter := {
  Register c := {| registerCalls := S (registerCalls c);
                   deregisterCalls := deregisterCalls c |};
  Deregister c := {| registerCalls := registerCalls c;
                     deregisterCalls := S (deregisterCalls c) |}
}.

Section PeriodicRegistrar.

Context {R : Type} `{!Registrar R}.

Record periodicRegistrar : Type := {
  registrar : R;
  interval : Z;   (* time.Duration *)
  quitc : option Go.chan
}.

(** Where a goroutine of [p.loop()] stands. *)
Inductive loop_pc : Type :=
| LoopSelect                     (* at [for]: about to evaluate the select *)
| LoopWait (q : option Go.chan)  (* in the select; [p.quitc] was read as [q] *)
| LoopReturned.

Record world : Type := {
  p : periodicRegistrar;
  heap : Go.chans;
  loops : list loop_pc;    (* one per [go p.loop()], in spawn order *)
  stdout : list string
}.

Definition NewPeriodicRegistrar (r : R) (interval : Z) : world :=
  {| p := {| registrar := r; interval := interval; quitc := None |};
     heap := Go.no_chans; loops := []; stdout := [] |}.

Definition periodic_Register (w : world) : world :=
  match quitc (p w) with
  | Some _ => w
  | None =>
      let '(q, h) := Go.make_chan (heap w) in
      {| p := {| registrar := registrar (p w); interval := interval (p w);
                 quitc := Some q |};
         heap := h;
         loops := loops w ++ [LoopSelect];   (* go p.loop() *)
         stdout := stdout w |}
  end.

Definition periodic_Deregister (w : world) : Go.outcome world :=
  let* h := Go.close (quitc (p w)) (heap w) in
  Go.Done {| p := {| registrar := Deregister (registrar (p w));
                     interval := interval (p w);
                     quitc := None |};
             heap := h; loops := loops w; stdout := stdout w |}.

Definition set_loop (w : world) (i : nat) (l : loop_pc) : world :=
  {| p := p w; heap := heap w; loops := <[ i := l ]> (loops w);
     stdout := stdout w |}.

(** The body of [case <-time.After(p.interval)]. *)
Definition loop_tick (w : world) : world :=
  {| p := {| registrar := Register (registrar (p w));
             interval := interval (p w); quitc := quitc (p w) |};
     heap := heap w; loops := loops w;
     stdout := stdout w ++ ["REG"] |}.

(** What the scheduler, the select statements and the clock decide. *)
Inductive event : Type :=
| Enter (i : nat)    (* loop [i] evaluates the operands of its select *)
| Quit (i : nat)     (* the select of loop [i] takes [case <-p.quitc] *)
| Tick (i : nat)     (* the interval of loop [i] is over: the timer case *)
| CallRegister       (* the owner calls [p.Register()] *)
| CallDeregister     (* the owner calls [p.Deregister()] *).

(** One step; [None] when the event cannot happen in [w]. *)
Definition step (e : event) (w : world) : option (Go.outcome world) :=
  match e with
  | Enter i =>
      match loops w !! i with
      | Some LoopSelect => Some (Go.Done (set_loop w i (LoopWait (quitc (p w)))))
      | _ => None
      end
  | Quit i =>
      match loops w !! i with
      | Some (LoopWait q) =>
          if Go.recv_ready (heap w) q
          then Some (Go.Done (set_loop w i LoopReturned))
          else None
      | _ => None
      end
  | Tick i =>
      match loops w !! i with
      | Some (LoopWait _) => Some (Go.Done (set_loop (loop_tick w) i LoopSelect))
      | _ => None
      end
  | CallRegister => Some (Go.Done (periodic_Register w))
  | CallDeregister => Some (periodic_Deregister w)
  end.

(** A schedule: events that cannot happen are passed over. *)
Fixpoint run (sched : list event) (w : world) : Go.outcome world :=
  match sched with
  | [] => Go.Done w
  | e :: sched =>
      match step e w with
      | None => run sched w
      | Some o => let* w := o in run sched w
      end
  end.

(** The goroutines of [loop] that have not returned. *)
Definition running (l : loop_pc) : bool :=
  match l with
  | LoopReturned => false
  | _ => true
  end.

Definition active_loops (w : world) : list loop_pc := filter running (loops w).

(** One interval goes by with no call from the owner: every loop that is
    still running gets to its select and its timer fires. *)
Definition one_interval (w : world) : Go.outcome world :=
  run (flat_map (fun i => [Enter i; Tick i]) (seq 0 (length (loops w)))) w.

Fixpoint intervals (n : nat) (w : world) : Go.outcome world :=
  match n with
  | O => Go.Done w
  | S n => let* w := one_interval w in intervals n w
  end.

(** The states the registrar can be in: made by the constructor, then
    any steps that do not panic. *)
Inductive reachable : world -> Prop :=
| reach_new r i : reachable (NewPeriodicRegistrar r i)
| reach_step w e w' :
    reachable w -> step e w = Some (Go.Done w') -> reachable w'.

End PeriodicRegistrar.
End Sd.

(** ** Invariants and the vocabulary of the properties *)

(** What the registrar logs for the outcome of a client call. *)
Definition logged_outcome (action : string) (res : option Go.error) : Log.keyvals :=
  match res with
  | Some err => [Log.Str "err"; Log.Err err]
  | None => [Log.Str "action"; Log.Str action]
  end.

(** The channel in [s.quitc] is open as long as it is there. *)
Definition quitc_open {Cache : Type} (w : Eureka.world (Cache := Cache)) : Prop :=
  forall q, Eureka.quitc (Eureka.sub w) = Some q ->
            Go.is_closed (Eureka.heap w) q = false.

(** [s.quitc] is nil and the loop has not read it yet, or has read nil. *)
Definition loop_missed_stop {Cache : Type} (w : Eureka.world (Cache := Cache))
    : Prop :=
  Eureka.quitc (Eureka.sub w) = None /\
  (Eureka.loop w = Eureka.LoopStart \/ Eureka.loop w = Eureka.LoopSelect \/
   Eureka.loop w = Eureka.LoopWait None).

(** The same for the watcher: started with a nil [done], it never returns. *)
Definition watch_missed_stop {Cache : Type} (w : Eureka.world (Cache := Cache))
    : Prop :=
  loop_missed_stop w /\
  (Eureka.loop w = Eureka.LoopStart /\ Eureka.watch w = Eureka.WatchNone \/
   Eureka.watch w = Eureka.Watching None).

(** Only a delivered update touches the cache. *)
Definition is_Deliver (e : Eureka.event) : bool :=
  match e with
  | Eureka.Deliver _ => true
  | _ => false
  end.

(** The periodic registrar is running when [p.quitc] holds a channel. *)
Definition Running {R : Type} (w : Sd.world (R := R)) : Prop :=
  is_Some (Sd.quitc (Sd.p w)).

(** Closed channels have been made, and the one in [p.quitc] is open. *)
Definition quitc_fresh {R : Type} (w : Sd.world (R := R)) : Prop :=
  (forall c, c ∈ Go.closed (Sd.heap w) -> (c < Go.made (Sd.heap w))%nat) /\
  (forall q, Sd.quitc (Sd.p w) = Some q ->
             (q < Go.made (Sd.heap w))%nat /\ q ∉ Go.closed (Sd.heap w)).

(** ** Test doubles for the examples *)

(** The conversions the client takes as given: whole seconds of the
    duration, and a marshaller that always succeeds. *)
Definition whole_seconds (d : Z) : Z := d `quot` 1000000000.

Definition marshal_keys (m : gmap string string) : string + Go.error :=
  inl (String.concat "," (map_to_list m).*1).

(** A client whose calls always fail. *)
#[global] Instance failing_Client : Eureka.Client unit := {
  Client_GetEntries _ k := (inr "registry unreachable", k);
  Client_Register _ k := (Some "registry unreachable", k);
  Client_Deregister _ k := (Some "registry unreachable", k)
}.

(** A registry that knows the application under another host, so that the
    heartbeat of the service fails although its name resolves. *)
Definition other_host_registered : Eureka.mockConn :=
  (Eureka.mock_RegisterInstance
     (Eureka.serviceToInstance whole_seconds marshal_keys
        (Eureka.testService "name" "a" 123))
     Eureka.newMockConn).2.

(** The backend could not be polled. *)
Definition failed_update : Fargo.AppUpdate :=
  {| Fargo.UpdApp := {| Fargo.Instances := [] |};
     Fargo.UpdErr := Some "poll failed" |}.

(** [testFactory] of the subscriber tests: the endpoint answers with the
    instance; here it is the instance.  There is no closer. *)
Definition testFactory (instance : string) : string * option unit + Go.error :=
  inl (instance, None).

Definition noClose (c : unit) : option Go.error := None.

#[global] Instance test_cache : Cache.Ops string unit (Cache.Cache string unit) :=
  Cache.spec_Ops string unit noClose.

Definition test_subscriber : Eureka.world (Cache := Cache.Cache string unit) :=
  Eureka.NewSubscriber "foo.bar.baz" testFactory Log.NewNopLogger.

Definition noCalls : Sd.callCounter :=
  {| Sd.registerCalls := 0; Sd.deregisterCalls := 0 |}.

(** A periodic registrar registered once whose loop has entered its select. *)
Definition waiting_registrar : Sd.world (R := Sd.callCounter) :=
  Sd.set_loop (Sd.periodic_Register (Sd.NewPeriodicRegistrar noCalls 30))
              0 (Sd.LoopWait (Some 0%nat)).

(** No two entries of the registry have the same host name. *)
Definition hosts_unique (mc : Eureka.mockConn) : Prop :=
  NoDup ((fun e => Fargo.HostName (Eureka.instance e)) <$> Eureka.registry mc).

(** The address under which [appToEntries] lists the instance of a service. *)
Definition service_entry (s : Eureka.Service) : string :=
  Eureka.Address s +:+ ":" +:+ pretty (Eureka.Port s).

(** ** sd/eureka: the options of [NewClient] *)

Module EurekaOptions.

(** [defaultPollInterval = 30 * time.Second] *)
Definition defaultPollInterval : Z := 30 * 1000000000.

Section WithHttpClient.

(** [http.Client]; a [*http.Client] may be nil. *)
Variable HttpClient_t : Type.

Record clientConfig : Type := {
  httpClient : option HttpClient_t;
  pollInterval : Z;
  logger : option Log.Logger
}.

(** [Option]: a function that updates the [clientConfig] it points to. *)
Definition Option : Type := clientConfig -> clientConfig.

Definition HttpClient (client : option HttpClient_t) : Option :=
  fun c => {| httpClient := client; pollInterval := pollInterval c;
              logger := logger c |}.

Definition PollInterval (interval : Z) : Option :=
  fun c => {| httpClient := httpClient c; pollInterval := interval;
              logger := logger c |}.

(** What [NewClient] sets up before it wraps the connection: the package
    variable [fargo.HttpClient] and the field [PollInterval] of the
    connection that [fargo.NewConn] returns. *)
Record clientSetup : Type := {
  fargo_HttpClient : option HttpClient_t;
  conn_PollInterval : Z
}.

(** [NewClient] up to the call of [fargo.NewConn]; [global] is the value
    of [fargo.HttpClient] before the call. *)
Definition NewClient (global : option HttpClient_t) (options : list Option)
    : clientSetup :=
  let config :=
    foldl (fun config opt => opt config)
          {| httpClient := None; pollInterval := defaultPollInterval;
             logger := None |}
          options in
  {| fargo_HttpClient :=
       match httpClient config with
       | Some client => Some client   (* fargo.HttpClient = config.httpClient *)
       | None => global
       end;
     conn_PollInterval := pollInterval config |}.

(** The two options the package offers. *)
Inductive option_kind : Type :=
| WithHttpClient (client : option HttpClient_t)
| WithPollInterval (interval : Z).

Definition to_Option (k : option_kind) : Option :=
  match k with
  | WithHttpClient client => HttpClient client
  | WithPollInterval interval => PollInterval interval
  end.

(** The interval of the last [PollInterval] among the options. *)
Definition last_interval (ks : list option_kind) : option Z :=
  last (omap (fun k => match k with
                       | WithPollInterval d => Some d
                       | WithHttpClient _ => None
                       end) ks).

(** The client of the last [HttpClient] among the options. *)
Definition last_client (ks : list option_kind) : option (option HttpClient_t) :=
  last (omap (fun k => match k with
                       | WithHttpClient c => Some c
                       | WithPollInterval _ => None
                       end) ks).

End WithHttpClient.
End EurekaOptions.

(** The calls an owner makes on a registrar. *)
Inductive registrar_call : Type := DoRegister | DoDeregister.

Definition registrar_run {K : Type} `{!Eureka.Client K}
    (calls : list registrar_call) (r : Eureka.registrar (K := K))
    : Eureka.registrar (K := K) :=
  foldl (fun r c => match c with
                    | DoRegister => (Eureka.registrar_Register r).2
                    | DoDeregister => (Eureka.registrar_Deregister r).2
                    end) r calls.

(** The updates the backend pushes along a schedule. *)
Definition deliveries (sched : list Eureka.event) : list Fargo.AppUpdate :=
  omap (fun e => match e with
                 | Eureka.Deliver u => Some u
                 | _ => None
                 end) sched.

(** A subscriber whose loop waits in its select and whose watcher listens,
    both on the channel of [s.quitc]. *)
Definition watching_subscriber : Eureka.world (Cache := Cache.Cache string unit) :=
  {| Eureka.sub := Eureka.sub test_subscriber;
     Eureka.heap := Eureka.heap test_subscriber;
     Eureka.loop := Eureka.LoopWait (Some 0%nat);
     Eureka.watch := Eureka.Watching (Some 0%nat) |}.

(** The events of the loop goroutines, none of the owner. *)
Definition is_loop_event (e : Sd.event) : bool :=
  match e with
  | Sd.Enter _ | Sd.Quit _ | Sd.Tick _ => true
  | Sd.CallRegister | Sd.CallDeregister => false
  end.

(** Every loop goroutine is at the top of its [for], or has returned. *)
Definition loops_idle {R : Type} (w : Sd.world (R := R)) : Prop :=
  Forall (fun l => l = Sd.LoopSelect \/ l = Sd.LoopReturned) (Sd.loops w).

(** What an interval does to such a world: every running loop has called
    the underlying [Register] and printed its line. *)
Definition after_interval {R : Type} `{!Sd.Registrar R} (k : nat)
    (w : Sd.world (R := R)) : Sd.world (R := R) :=
  {| Sd.p := {| Sd.registrar := Nat.iter k Sd.Register (Sd.registrar (Sd.p w));
                Sd.interval := Sd.interval (Sd.p w);
                Sd.quitc := Sd.quitc (Sd.p w) |};
     Sd.heap := Sd.heap w;
     Sd.loops := Sd.loops w;
     Sd.stdout := Sd.stdout w ++ replicate k "REG" |}.

(** A periodic registrar registered, deregistered before its loop ran, and
    registered again. *)
Definition restarted_registrar : Sd.world (R := Sd.callCounter) :=
  match Sd.periodic_Deregister
          (Sd.periodic_Register (Sd.NewPeriodicRegistrar noCalls 30)) with
  | Go.Done w => Sd.periodic_Register w
  | Go.Panic _ => Sd.NewPeriodicRegistrar noCalls 30
  end.

(** ** examples/stringsvc: the service, its endpoint and the proxy *)

Module Stringsvc.

(** [ErrEmpty = errors.New("empty string")] *)
Definition ErrEmpty : Go.error := "empty string".

(** The dynamic values that travel as [interface{}] between the endpoint
    and its callers; [OtherValue] stands for a value of any other type. *)
Inductive value : Type :=
| uppercaseRequest (S : string)
| uppercaseResponse (V : string) (Err : option Go.error)
| countRequest (S : string)
| countResponse (V : Z)
| OtherValue.

Section WithState.

(** The state that a service and an endpoint may read and write (loggers,
    counters, the network). *)
Variable St : Type.

(** The interface [StringService]. *)
Record StringService : Type := {
  Uppercase : string -> St -> (string * option Go.error) * St;
  Count : string -> St -> Z * St
}.

(** [endpoint.Endpoint]; the context is not modelled. *)
Definition Endpoint : Type :=
  value -> St -> Go.outcome ((value * option Go.error) * St).

(** [strings.ToUpper] is the standard library's and is taken as given. *)
Variable strings_ToUpper : string -> string.

Definition stringService : StringService :=
  {| Uppercase s st :=
       if bool_decide (s = "") then (("", Some ErrEmpty), st)
       else ((strings_ToUpper s, None), st);
     Count s st := (Z.of_nat (String.length s), st) |}.

(** The type assertion [request.(uppercaseRequest)] panics on a value of
    another type. *)
Definition makeUppercaseEndpoint (svc : StringService) : Endpoint :=
  fun request st =>
    match request with
    | uppercaseRequest s =>
        let '((v, err), st) := Uppercase svc s st in
        Go.Done ((uppercaseResponse v err, None), st)
    | _ => Go.Panic "interface conversion"
    end.

Definition makeCountEndpoint (svc : StringService) : Endpoint :=
  fun request st =>
    match request with
    | countRequest s =>
        let '(v, st) := Count svc s st in
        Go.Done ((countResponse v, None), st)
    | _ => Go.Panic "interface conversion"
    end.

Record proxymw : Type := {
  UppercaseEndpoint : Endpoint;
  next : StringService   (* the embedded StringService *)
}.

Definition proxymw_Uppercase (mw : proxymw) (s : string) (st : St)
    : Go.outcome ((string * option Go.error) * St) :=
  let* r := UppercaseEndpoint mw (uppercaseRequest s) st in
  match r with
  | ((_, Some err), st) => Go.Done (("", Some err), st)
  | ((uppercaseResponse v e, None), st) => Go.Done ((v, e), st)
  | ((_, None), st) => Go.Panic "interface conversion"
  end.

(** [Count] is promoted from the embedded service. *)
Definition proxymw_Count (mw : proxymw) (s : string) (st : St) : Z * St :=
  Count (next mw) s st.

End WithState.
End Stringsvc.

(** A periodic registrar registered and deregistered before its loop ran. *)
Definition deregistered_early : Sd.world (R := Sd.callCounter) :=
  match Sd.periodic_Deregister
          (Sd.periodic_Register (Sd.NewPeriodicRegistrar noCalls 30)) with
  | Go.Done w => w
  | Go.Panic _ => Sd.NewPeriodicRegistrar noCalls 30
  end.

(** A subscriber after the orderly shutdown: [Stop] was called, the loop
    and the watcher have taken their quit cases and returned. *)
Definition stopped_subscriber : Eureka.world (Cache := Cache.Cache string unit) :=
  {| Eureka.sub := {| Eureka.name := "foo.bar.baz";
                      Eureka.cache := Eureka.cache (Eureka.sub test_subscriber);
                      Eureka.quitc := None |};
     Eureka.heap := {| Go.made := 1; Go.closed := {[ 0%nat ]} ∪ ∅ |};
     Eureka.loop := Eureka.LoopReturned;
     Eureka.watch := Eureka.WatchReturned |}.

(** The factory makes an endpoint for the instance. *)
Definition accepts {Endpoint : Type} (factory : Static.Factory Endpoint)
    (instance : string) : bool :=
  match factory instance with
  | inl _ => true
  | inr _ => false
  end.

(** What a call of the registrar asks of the client. *)
Definition client_call {K : Type} `{!Eureka.Client K} (c : registrar_call)
    (s : Eureka.Service) (k : K) : option Go.error * K :=
  match c with
  | DoRegister => Eureka.Client_Register s k
  | DoDeregister => Eureka.Client_Deregister s k
  end.

(** The action a call stands for in the log. *)
Definition action_name (c : registrar_call) : string :=
  match c with
  | DoRegister => "register"
  | DoDeregister => "deregister"
  end.

(** The key-values of the record of a call whose client call returned
    [res]: the error, or the action. *)
Definition call_keyvals (c : registrar_call) (res : option Go.error)
    : Log.keyvals :=
  match res with
  | Some err => [Log.Str "err"; Log.Err err]
  | None => [Log.Str "action"; Log.Str (action_name c)]
  end.

(** The client calls of a sequence of calls, one after the other on the
    client the one before left: what each returned, and the client at the
    end. *)
Fixpoint client_calls {K : Type} `{!Eureka.Client K} (s : Eureka.Service)
    (calls : list registrar_call) (k : K)
    : list (registrar_call * option Go.error) * K :=
  match calls with
  | [] => ([], k)
  | c :: calls =>
      let '(res, k) := client_call c s k in
      let '(results, k) := client_calls s calls k in
      ((c, res) :: results, k)
  end.

(** Modelled from the spec: the package [sd/cache] is not among the
    sources.  The spec has "Update([]) -> Endpoints() returns an empty
    sequence": after the empty update the snapshot is empty, whatever the
    cache held before. *)
Definition empties_on_empty_Update {Endpoint Closer Cache : Type}
    (ops : Cache.Ops Endpoint Closer Cache) : Prop :=
  forall c : Cache, Cache.Endpoints (Cache.Update [] c) = [].

(** ** sd/cache: a call of [Update] step by step *)

Module CacheRun.
Section FromSpec.

Variables Endpoint Closer : Type.

(** [io.Closer.Close] *)
Variable Close : Closer -> option Go.error.

Local Abbreviation Cache := (Cache.Cache Endpoint Closer).
Local Abbreviation CacheEntry := (Cache.CacheEntry Endpoint Closer).

(** Modelled from the spec: "toAdd = addresses - currentKeys". *)
Definition toAdd (addresses : list string) (c : Cache) : list string :=
  filter (fun a => a ∉ (map_to_list (Cache.entries _ _ c)).*1)
         (remove_dups addresses).

(** Modelled from the spec: "toRemove = currentKeys - addresses". *)
Definition toRemove (addresses : list string) (c : Cache) : list string :=
  filter (fun a => a ∉ addresses) (map_to_list (Cache.entries _ _ c)).*1.

(** Modelled from the spec: "deletes the entry", the entry leaves the
    mapping; its handle is not released yet. *)
Definition unlink (c : Cache) (address : string) : Cache :=
  {| Cache.factory := Cache.factory _ _ c;
     Cache.logger := Cache.logger _ _ c;
     Cache.entries := delete address (Cache.entries _ _ c);
     Cache.released := Cache.released _ _ c |}.

(** Modelled from the spec: "releases its handle (failures logged, not
    propagated)". *)
Definition release (c : Cache) (ce : CacheEntry) : Cache :=
  {| Cache.factory := Cache.factory _ _ c;
     Cache.logger :=
       match Cache.handle _ _ ce ≫= Close with
       | Some err => Log.Log (Cache.logger _ _ c) [Log.Str "err"; Log.Err err]
       | None => Cache.logger _ _ c
       end;
     Cache.entries := Cache.entries _ _ c;
     Cache.released := Cache.released _ _ c ++ option_list (Cache.handle _ _ ce) |}.

(** Modelled from the spec: the package [sd/cache] is not among the
    sources.  The spec has: "The factory invocations (which may perform
    network I/O) are executed without holding the lock that guards reader
    access to the snapshot, to avoid blocking concurrent reads during slow
    instance additions; the visible mapping and its derived snapshot are
    swapped in atomically once all additions/removals for this Update are
    resolved", and "every CacheEntry's resource handle is released exactly
    once, no earlier than the moment it is unlinked from the visible
    mapping".  Where a call of [Update] stands: *)
Inductive update_pc : Type :=
| Idle
    (* no call of [Update] is under way *)
| Adding (pending : list string) (staged : Cache) (removals : list string)
    (* the factory is invoked for the addresses of [toAdd], one by one,
       on a copy of the cache; the lock is not held *)
| Swapping (staged : Cache) (removals : list string)
    (* the lock is held: the copy is about to become the visible cache *)
| Releasing (removed : list CacheEntry)
    (* the lock is given back; the handles of the entries that left the
       mapping are released, one by one *).

(** Modelled from the spec: the cache as its readers and its writer share
    it, with "the lock that guards reader access to the snapshot": the
    visible cache, whether that lock is held, and where the writer
    stands. *)
Record state : Type := {
  visible : Cache;
  locked : bool;
  updating : update_pc
}.

(** Modelled from the spec: what the writer does, step by step. *)
Inductive event : Type :=
| CallUpdate (addresses : list string)  (* the writer calls [Update] *)
| CallFactory                           (* [factory(address)]: network I/O *)
| Lock
| SwapUnlock
| CloseHandle                           (* the handle of a removed entry is released *)
| Return                                (* [Update] returns *).

(** Modelled from the spec: one step of the writer; [None] when the event
    cannot happen in [r].  "Update calls themselves must be mutually
    exclusive": [CallUpdate] needs the writer to be idle. *)
Definition step (e : event) (r : state) : option state :=
  match e, updating r with
  | CallUpdate addresses, Idle =>
      Some {| visible := visible r; locked := locked r;
              updating := Adding (toAdd addresses (visible r)) (visible r)
                                 (toRemove addresses (visible r)) |}
  | CallFactory, Adding (address :: pending) staged removals =>
      Some {| visible := visible r; locked := locked r;
              updating := Adding pending
                            (Cache.add_address _ _ staged address) removals |}
  | Lock, Adding [] staged removals =>
      if locked r then None
      else Some {| visible := visible r; locked := true;
                   updating := Swapping staged removals |}
  | SwapUnlock, Swapping staged removals =>
      Some {| visible := foldl unlink staged removals; locked := false;
              updating :=
                Releasing (omap (fun a => Cache.entries _ _ staged !! a) removals) |}
  | CloseHandle, Releasing (ce :: removed) =>
      Some {| visible := release (visible r) ce; locked := locked r;
              updating := Releasing removed |}
  | Return, Releasing [] =>
      Some {| visible := visible r; locked := locked r; updating := Idle |}
  | _, _ => None
  end.

(** The events of a list, one after the other; [None] when one of them
    cannot happen. *)
Fixpoint run (es : list event) (r : state) : option state :=
  match es with
  | [] => Some r
  | e :: es =>
      match step e r with
      | Some r => run es r
      | None => None
      end
  end.

(** A cache at rest. *)
Definition idle (c : Cache) : state :=
  {| visible := c; locked := false; updating := Idle |}.

(** Modelled from the spec: "Endpoints() returns the current immutable
    snapshot"; the reader needs the lock to be free, and has no result
    ([None]) as long as it waits for it. *)
Definition Endpoints (r : state) : option (list Endpoint) :=
  if locked r then None else Some (Cache.spec_Endpoints _ _ (visible r)).

(** The next step of the writer is a factory invocation or the release of
    a handle: the I/O of an [Update] is under way. *)
Definition doing_io (r : state) : bool :=
  match updating r with
  | Adding (_ :: _) _ _ => true
  | Releasing (_ :: _) => true
  | _ => false
  end.

(** The [Update] calls among the events, in order. *)
Definition updates (es : list event) : list (list string) :=
  omap (fun e => match e with
                 | CallUpdate addresses => Some addresses
                 | _ => None
                 end) es.

(** The cache after the updates of a list, each applied as a whole. *)
Definition after_updates (c : Cache) (us : list (list string)) : Cache :=
  foldl (fun c addresses => Cache.spec_Update _ _ Close addresses c) c us.

(** The events of one call of [Update] on the cache [c], from the call to
    the return. *)
Definition update_events (addresses : list string) (c : Cache) : list event :=
  CallUpdate addresses
    :: replicate (length (toAdd addresses c)) CallFactory
    ++ [Lock; SwapUnlock]
    ++ replicate
         (length (omap (fun a => Cache.entries _ _
                                   (foldl (Cache.add_address _ _) c (toAdd addresses c))
                                 !! a)
                       (toRemove addresses c)))
         CloseHandle
    ++ [Return].

(** What holds of the state [r] that the writer has reached from the idle
    cache [c0] by events whose updates are [us]. *)
Definition consistent (c0 : Cache) (us : list (list string)) (r : state) : Prop :=
  match updating r with
  | Idle => locked r = false /\ visible r = after_updates c0 us
  | Adding pending staged removals =>
      locked r = false /\
      exists us' addresses,
        us = us' ++ [addresses] /\
        visible r = after_updates c0 us' /\
        removals = toRemove addresses (visible r) /\
        foldl (Cache.add_address _ _) staged pending =
          foldl (Cache.add_address _ _) (visible r) (toAdd addresses (visible r))
  | Swapping staged removals =>
      locked r = true /\
      exists us' addresses,
        us = us' ++ [addresses] /\
        visible r = after_updates c0 us' /\
        removals = toRemove addresses (visible r) /\
        staged = foldl (Cache.add_address _ _) (visible r) (toAdd addresses (visible r))
  | Releasing removed =>
      locked r = false /\ foldl release (visible r) removed = after_updates c0 us
  end.

End FromSpec.
End CacheRun.

(** [s.Endpoints()] while the cache that [s] points to stands at [r]:
    [s.cache.Endpoints()] with a nil error, as in the source; [None] as
    long as the call waits for the lock of the cache, which is the
    spec's. *)
Definition live_Endpoints {Endpoint Closer : Type} (Close : Closer -> option Go.error)
    (s : Eureka.subscriber (Cache := Cache.Cache Endpoint Closer))
    (r : CacheRun.state Endpoint Closer)
    : option (list Endpoint * option Go.error) :=
  if CacheRun.locked _ _ r then None
  else Some (Eureka.subscriber_Endpoints (H := Cache.spec_Ops Endpoint Closer Close)
               (Eureka.set_cache s (CacheRun.visible _ _ r))).

(** A test double for the cache that keeps what it is asked: the lists of
    the [Update] calls it has received, the latest first.  An instance is
    its own endpoint, and the snapshot is the list of the latest call. *)
Definition recording_cache : Cache.Ops string unit (list (list string)) :=
  {| Cache.New := fun _ _ => [];
     Cache.Update := fun addresses calls => addresses :: calls;
     Cache.Endpoints := fun calls => hd [] calls |}.

(** * Properties *)

(** ** The static publisher *)

Section StaticFacts.

Context {Endpoint : Type}.

Implicit Types (factory : Static.Factory Endpoint) (logger : Log.Logger).

Lemma range_instances_spec factory instances acc logger :
  Static.range_instances Endpoint factory instances acc logger =
  (acc ++ Static.made_endpoints Endpoint factory instances,
   {| Log.context := Log.context logger;
      Log.records := Log.records logger ++
        Static.failure_records Endpoint (Log.context logger) factory instances |}).
Proof.
  revert acc logger.
  induction instances as [|i rest IH]; intros acc logger; simpl.
  - rewrite !app_nil_r. by destruct logger.
  - unfold Static.made_endpoints, Static.failure_records in *. simpl.
    destruct (factory i) as [e|err]; rewrite IH; simpl.
    + by rewrite <- app_assoc.
    + by rewrite <- app_assoc.
Qed.

Lemma made_endpoints_app factory l1 l2 :
  Static.made_endpoints Endpoint factory (l1 ++ l2) =
  Static.made_endpoints Endpoint factory l1 ++ Static.made_endpoints Endpoint factory l2.
Proof. apply omap_app. Qed.

Lemma failure_records_app ctx factory l1 l2 :
  Static.failure_records Endpoint ctx factory (l1 ++ l2) =
  Static.failure_records Endpoint ctx factory l1 ++
  Static.failure_records Endpoint ctx factory l2.
Proof. apply omap_app. Qed.

Lemma elem_of_made_endpoints factory instances e :
  e ∈ Static.made_endpoints Endpoint factory instances <->
  exists i, i ∈ instances /\ factory i = inl e.
Proof.
  unfold Static.made_endpoints. rewrite list_elem_of_omap.
  split; intros (i & Hi & Hf); exists i; split; auto.
  - destruct (factory i); congruence.
  - by rewrite Hf.
Qed.

End StaticFacts.

(** C7.  When the factory fails for one instance of a batch, that instance
    is skipped and its failure is logged; every other instance of the batch
    is treated as if the failing one were not there, so each one the
    factory accepts still yields its endpoint. *)
Theorem NewPublisher_skips_failed_instance {Endpoint : Type}
    (factory : Static.Factory Endpoint) (logger : Log.Logger)
    (before after : list string) (bad : string) (err : Go.error) :
  factory bad = inr err ->
  let ctx := Log.context logger ++ [Log.Str "component"; Log.Str "Fixed Publisher"] in
  let result := Static.NewPublisher Endpoint (before ++ bad :: after) factory logger in
  Static.endpoints Endpoint result.1 =
    Static.endpoints Endpoint
      (Static.NewPublisher Endpoint (before ++ after) factory logger).1 /\
  Static.endpoints Endpoint result.1 =
    Static.made_endpoints Endpoint factory before ++
    Static.made_endpoints Endpoint factory after /\
  (forall i e, i ∈ before ++ after -> factory i = inl e ->
               e ∈ Static.endpoints Endpoint result.1) /\
  Log.records result.2 =
    Log.records logger ++
    Static.failure_records Endpoint ctx factory before ++
    [ctx ++ [Log.Str "instance"; Log.Str bad; Log.Str "err"; Log.Err err]] ++
    Static.failure_records Endpoint ctx factory after.
Proof.
  intros Hbad ctx result. subst result. unfold Static.NewPublisher.
  rewrite !range_instances_spec. simpl.
  rewrite !made_endpoints_app, failure_records_app.
  assert (Hm : Static.made_endpoints Endpoint factory (bad :: after) =
               Static.made_endpoints Endpoint factory after).
  { unfold Static.made_endpoints. simpl. by rewrite Hbad. }
  assert (Hf : Static.failure_records Endpoint ctx factory (bad :: after) =
               (ctx ++ [Log.Str "instance"; Log.Str bad; Log.Str "err"; Log.Err err])
               :: Static.failure_records Endpoint ctx factory after).
  { unfold Static.failure_records. simpl. by rewrite Hbad. }
  rewrite Hm. fold ctx. rewrite Hf.
  repeat split; try done.
  intros i e Hi He. rewrite <- made_endpoints_app.
  apply elem_of_made_endpoints. eauto.
Qed.

(** The batch of three where the factory rejects only ["b"]. *)
Lemma NewPublisher_skips_failed_instance_witness :
  let factory := fun i : string => if bool_decide (i = "b") then inr "no b" else inl i in
  Static.endpoints string
    (Static.NewPublisher string (["a"] ++ "b" :: ["c"]) factory Log.NewNopLogger).1
  = ["a"; "c"].
Proof.
  intros factory.
  pose proof (NewPublisher_skips_failed_instance factory Log.NewNopLogger
                ["a"] ["c"] "b" "no b" eq_refl) as H.
  simpl in H. destruct H as (_ & H & _). exact H.
Defined.

(** ** The registry client *)

Section ClientFacts.

Variable seconds_int32 : Z -> Z.
Variable json_Marshal : gmap string string -> string + Go.error.

Local Abbreviation toInstance := (Eureka.serviceToInstance seconds_int32 json_Marshal).
Local Abbreviation Register := (Eureka.client_Register seconds_int32 json_Marshal).

Lemma serviceToInstance_names (s : Eureka.Service) :
  Fargo.App (toInstance s) = Eureka.Name s /\
  Fargo.HostName (toInstance s) = Eureka.Address s /\
  Fargo.Port (toInstance s) = Eureka.Port s.
Proof.
  unfold Eureka.serviceToInstance.
  by destruct (json_Marshal (Eureka.Metadata s)).
Qed.

Section AnyConnection.

Context {C : Type} `{!Eureka.fargoConnection C}.

(** When the name does not resolve, [Register] is [RegisterInstance]. *)
Lemma client_Register_announces (s : Eureka.Service) (c c1 : C) (err : Go.error) :
  Eureka.GetApp (Eureka.Name s) c = (inr err, c1) ->
  Register s c = Eureka.RegisterInstance (toInstance s) c1.
Proof.
  intros Hget. unfold Eureka.client_Register, Eureka.client_GetEntries.
  by rewrite Hget.
Qed.

(** When the name resolves, [Register] sends a heartbeat, drops what the
    heartbeat returns and returns nil. *)
Lemma client_Register_renews (s : Eureka.Service) (c c1 : C)
    (app : Fargo.Application) :
  Eureka.GetApp (Eureka.Name s) c = (inl app, c1) ->
  Register s c = (None, (Eureka.HeartBeatInstance (toInstance s) c1).2).
Proof.
  intros Hget. unfold Eureka.client_Register, Eureka.client_GetEntries.
  rewrite Hget. by destruct (Eureka.HeartBeatInstance _ c1).
Qed.

End AnyConnection.

(** *** On the registry of the tests *)

Lemma entry_from_None idx reg i :
  Eureka.entry_from idx reg i = None <->
  Forall (fun e => Fargo.HostName (Eureka.instance e) <> Fargo.HostName i) reg.
Proof.
  revert idx. induction reg as [|e reg IH]; intros idx; simpl.
  - split; [constructor | done].
  - case_bool_decide as Heq.
    + split; [done | intros H; inversion H; done].
    + rewrite IH. split; [by constructor | by inversion 1].
Qed.

Lemma entry_from_snoc idx reg e i :
  Eureka.entry_from idx reg i = None ->
  Fargo.HostName (Eureka.instance e) = Fargo.HostName i ->
  Eureka.entry_from idx (reg ++ [e]) i = Some ((idx + length reg)%nat, e).
Proof.
  revert idx. induction reg as [|e' reg IH]; intros idx; simpl.
  - intros _ Heq. rewrite bool_decide_eq_true_2 by done. do 2 f_equal. lia.
  - case_bool_decide; [done|]. intros Hn Heq. rewrite IH by done.
    do 2 f_equal. lia.
Qed.

Lemma entry_from_Some idx reg i k e :
  Eureka.entry_from idx reg i = Some (k, e) ->
  (idx <= k)%nat /\ reg !! (k - idx)%nat = Some e /\
  Fargo.HostName (Eureka.instance e) = Fargo.HostName i.
Proof.
  revert idx. induction reg as [|e' reg IH]; intros idx; simpl; [done|].
  case_bool_decide as Heq.
  - intros [= <- <-]. rewrite Nat.sub_diag. done.
  - intros H. apply IH in H as (Hle & Hl & Hh). split; [lia|]. split; [|done].
    replace (k - idx)%nat with (S (k - S idx)) by lia. done.
Qed.

Lemma instances_nil_iff (mc : Eureka.mockConn) name :
  Eureka.instances mc name = [] <->
  Forall (fun e => Fargo.App (Eureka.instance e) <> name) (Eureka.registry mc).
Proof.
  unfold Eureka.instances. destruct mc as [reg]. simpl.
  induction reg as [|e reg IH]; [by split; [constructor|]|].
  rewrite filter_cons. case_decide as Hname; simpl.
  - split; [done | by inversion 1].
  - rewrite IH. split; [by constructor | by inversion 1].
Qed.

Lemma mock_GetApp_found (mc : Eureka.mockConn) name :
  Eureka.instances mc name <> [] ->
  Eureka.mock_GetApp name mc =
    (inl {| Fargo.Instances := Eureka.instances mc name |}, mc).
Proof. unfold Eureka.mock_GetApp. by destruct (Eureka.instances mc name). Qed.

Lemma mock_GetApp_missing (mc : Eureka.mockConn) name :
  Eureka.instances mc name = [] ->
  Eureka.mock_GetApp name mc = (inr "App not registered", mc).
Proof. unfold Eureka.mock_GetApp. by intros ->. Qed.

Lemma mock_HeartBeatInstance_length (i : Fargo.Instance) (mc : Eureka.mockConn) :
  length (Eureka.registry (Eureka.mock_HeartBeatInstance i mc).2) =
  length (Eureka.registry mc).
Proof.
  unfold Eureka.mock_HeartBeatInstance.
  destruct (Eureka.entry mc i) as [[idx e]|]; simpl; [|done].
  apply length_insert.
Qed.

(** C9.  On the registry of the tests: when no entry exists for the name
    of the service, [Register] registers the instance; when the name
    resolves to entries, [Register] renews by a heartbeat, returns nil and
    adds no entry.  So the first [Register] of a service unknown to the
    registry adds its instance with no heartbeat, and the next one counts
    one heartbeat on that entry and adds nothing. *)
Theorem client_Register_announce_then_renew
    (s : Eureka.Service) (mc : Eureka.mockConn) :
  (Eureka.instances mc (Eureka.Name s) = [] ->
     Register s mc = Eureka.mock_RegisterInstance (toInstance s) mc) /\
  (Eureka.instances mc (Eureka.Name s) <> [] ->
     Register s mc = (None, (Eureka.mock_HeartBeatInstance (toInstance s) mc).2) /\
     length (Eureka.registry (Register s mc).2) = length (Eureka.registry mc)) /\
  (Eureka.instances mc (Eureka.Name s) = [] ->
   Eureka.entry mc (toInstance s) = None ->
     Register s mc =
       (None, {| Eureka.registry := Eureka.registry mc ++
                   [{| Eureka.instance := toInstance s; Eureka.heartbeats := 0 |}] |}) /\
     Register s (Register s mc).2 =
       (None, {| Eureka.registry := Eureka.registry mc ++
                   [{| Eureka.instance := toInstance s; Eureka.heartbeats := 1 |}] |})).
Proof.
  split; [|split].
  - intros Hnone.
    exact (client_Register_announces s mc mc _ (mock_GetApp_missing _ _ Hnone)).
  - intros Hsome.
    pose proof (client_Register_renews s mc mc _ (mock_GetApp_found _ _ Hsome)) as ->.
    split; [done|]. apply mock_HeartBeatInstance_length.
  - intros Hnone Hentry.
    pose proof (client_Register_announces s mc mc _ (mock_GetApp_missing _ _ Hnone))
      as Hfirst.
    simpl in Hfirst. unfold Eureka.mock_RegisterInstance in Hfirst.
    rewrite Hentry in Hfirst. rewrite Hfirst. split; [done|]. simpl.
    set (e0 := {| Eureka.instance := toInstance s; Eureka.heartbeats := 0 |}).
    set (mc1 := {| Eureka.registry := Eureka.registry mc ++ [e0] |}).
    assert (Hsome : Eureka.instances mc1 (Eureka.Name s) <> []).
    { rewrite instances_nil_iff. simpl. rewrite Forall_app, Forall_singleton.
      intros [_ Hne]. apply Hne. apply serviceToInstance_names. }
    pose proof (client_Register_renews s mc1 mc1 _ (mock_GetApp_found _ _ Hsome)) as ->.
    simpl. unfold Eureka.mock_HeartBeatInstance, Eureka.entry. simpl.
    rewrite (entry_from_snoc 0 (Eureka.registry mc) e0 (toInstance s)) by done.
    simpl. do 2 f_equal.
    rewrite insert_app_r_alt, Nat.sub_diag by done. done.
Qed.

End ClientFacts.

(** [TestRegister]: two calls on the empty registry. *)
Lemma client_Register_announce_then_renew_witness :
  let s := Eureka.testService "name" "address" 0 in
  let r1 := Eureka.client_Register whole_seconds marshal_keys s Eureka.newMockConn in
  let r2 := Eureka.client_Register whole_seconds marshal_keys s r1.2 in
  (r1.1 = None /\ Eureka.heartbeats <$> Eureka.registry r1.2 = [0]) /\
  (r2.1 = None /\ Eureka.heartbeats <$> Eureka.registry r2.2 = [1]).
Proof.
  intros s r1 r2.
  destruct (client_Register_announce_then_renew whole_seconds marshal_keys
              s Eureka.newMockConn) as (_ & _ & H).
  destruct (H eq_refl eq_refl) as [H1 H2].
  subst r2 r1. rewrite H2, H1.
  repeat split; reflexivity.
Defined.

(** ** The registrar *)

(** C5.  Whatever the client call returns, [Register] and [Deregister] of
    the registrar complete and hand nothing back to the caller (their
    result is [tt]); the client is called once; the outcome goes to the
    logger only, as one record: the error when the call failed, the action
    when it succeeded. *)
Theorem registrar_fire_and_forget {K : Type} `{!Eureka.Client K}
    (r : Eureka.registrar (K := K)) :
  let reg := Eureka.Client_Register (Eureka.r_service r) (Eureka.r_client r) in
  let dereg := Eureka.Client_Deregister (Eureka.r_service r) (Eureka.r_client r) in
  Eureka.registrar_Register r =
    (tt, {| Eureka.r_client := reg.2; Eureka.r_service := Eureka.r_service r;
            Eureka.r_logger :=
              Log.Log (Eureka.r_logger r) (logged_outcome "register" reg.1) |}) /\
  Eureka.registrar_Deregister r =
    (tt, {| Eureka.r_client := dereg.2; Eureka.r_service := Eureka.r_service r;
            Eureka.r_logger :=
              Log.Log (Eureka.r_logger r) (logged_outcome "deregister" dereg.1) |}) /\
  Log.records (Eureka.r_logger (Eureka.registrar_Register r).2) =
    Log.records (Eureka.r_logger r) ++
    [Log.context (Eureka.r_logger r) ++ logged_outcome "register" reg.1] /\
  Log.records (Eureka.r_logger (Eureka.registrar_Deregister r).2) =
    Log.records (Eureka.r_logger r) ++
    [Log.context (Eureka.r_logger r) ++ logged_outcome "deregister" dereg.1].
Proof.
  intros reg dereg. subst reg dereg.
  unfold Eureka.registrar_Register, Eureka.registrar_Deregister.
  destruct (Eureka.Client_Register _ _) as [[e1|] k1];
    destruct (Eureka.Client_Deregister _ _) as [[e2|] k2]; simpl; done.
Qed.

Example registrar_logs_failure :
  let r := Eureka.NewRegistrar (Eureka.testService "name" "address" 0) tt
             Log.NewNopLogger in
  (Eureka.registrar_Register r).1 = tt /\
  Log.records (Eureka.r_logger (Eureka.registrar_Register r).2) =
    [[Log.Str "err"; Log.Err "registry unreachable"]].
Proof. split; reflexivity. Qed.

(** ** The cache *)

Section CacheFacts.

Context {Endpoint Closer : Type} (Close : Closer -> option Go.error).

Implicit Types (c : Cache.Cache Endpoint Closer) (l : list string).

Lemma entries_remove_address c a :
  Cache.entries _ _ (Cache.remove_address _ _ Close c a) =
  delete a (Cache.entries _ _ c).
Proof.
  unfold Cache.remove_address.
  destruct (Cache.entries _ _ c !! a) eqn:Hl; simpl; [done|].
  by rewrite delete_id.
Qed.

Lemma lookup_entries_foldl_remove c l (a : string) :
  Cache.entries _ _ (foldl (Cache.remove_address _ _ Close) c l) !! a =
  if bool_decide (a ∈ l) then None else Cache.entries _ _ c !! a.
Proof.
  revert c. induction l as [|b l IH]; intros c.
  - cbn [foldl]. case_bool_decide as Hin; [|done]. by apply elem_of_nil in Hin.
  - cbn [foldl]. rewrite IH, entries_remove_address. clear IH.
    destruct (decide (a = b)) as [->|Hne].
    + rewrite lookup_delete_eq.
      rewrite (bool_decide_eq_true_2 (b ∈ b :: l)) by left.
      by case_bool_decide.
    + rewrite lookup_delete_ne by done.
      case_bool_decide as Hin; case_bool_decide as Hin'; try done.
      * exfalso. apply Hin'. by right.
      * exfalso. apply elem_of_cons in Hin' as [?|?]; done.
Qed.

(** An empty update leaves no entry. *)
Lemma spec_Update_nil_entries c :
  Cache.entries _ _ (Cache.spec_Update _ _ Close [] c) = ∅.
Proof.
  unfold Cache.spec_Update. simpl.
  apply map_empty. intros a. rewrite lookup_entries_foldl_remove.
  case_bool_decide as Hin; [done|].
  destruct (Cache.entries _ _ c !! a) as [ce|] eqn:Hl; [|done].
  exfalso. apply Hin. apply list_elem_of_filter. split; [apply not_elem_of_nil|].
  apply list_elem_of_fmap. exists (a, ce). split; [done|].
  by apply elem_of_map_to_list.
Qed.

Lemma spec_Update_nil_Endpoints c :
  Cache.spec_Endpoints _ _ (Cache.spec_Update _ _ Close [] c) = [].
Proof.
  unfold Cache.spec_Endpoints. rewrite spec_Update_nil_entries.
  by rewrite map_to_list_empty.
Qed.

End CacheFacts.

(** ** The cache while an update is applied *)

Section CacheRunFacts.

Context {Endpoint Closer : Type} (Close : Closer -> option Go.error).

Implicit Types (c staged : Cache.Cache Endpoint Closer) (l : list string)
  (ce : Cache.CacheEntry Endpoint Closer) (r : CacheRun.state Endpoint Closer)
  (e : CacheRun.event) (es : list CacheRun.event) (us : list (list string)).

Local Abbreviation add_address := (Cache.add_address Endpoint Closer).
Local Abbreviation remove_address := (Cache.remove_address Endpoint Closer Close).
Local Abbreviation unlink := (CacheRun.unlink Endpoint Closer).
Local Abbreviation release := (CacheRun.release Endpoint Closer Close).
Local Abbreviation entries := (Cache.entries Endpoint Closer).
Local Abbreviation step := (CacheRun.step Endpoint Closer Close).
Local Abbreviation run := (CacheRun.run Endpoint Closer Close).
Local Abbreviation idle := (CacheRun.idle Endpoint Closer).
Local Abbreviation after_updates := (CacheRun.after_updates Endpoint Closer Close).

Lemma spec_Update_phases addresses c :
  Cache.spec_Update _ _ Close addresses c =
  foldl remove_address
        (foldl add_address c (CacheRun.toAdd _ _ addresses c))
        (CacheRun.toRemove _ _ addresses c).
Proof. reflexivity. Qed.

Lemma remove_address_split c (a : string) :
  remove_address c a =
  match entries c !! a with
  | None => c
  | Some ce => release (unlink c a) ce
  end.
Proof. unfold Cache.remove_address. by destruct (entries c !! a). Qed.

Lemma unlink_absent c (a : string) : entries c !! a = None -> unlink c a = c.
Proof.
  intros Hl. unfold CacheRun.unlink. rewrite delete_id by done. by destruct c.
Qed.

Lemma foldl_unlink_release c ce l :
  foldl unlink (release c ce) l = release (foldl unlink c l) ce.
Proof. revert c. induction l as [|a l IH]; intros c; [done|]. simpl. by rewrite <- IH. Qed.

Lemma omap_lookup_unlink c ce (a : string) l :
  a ∉ l ->
  omap (fun b => entries (release (unlink c a) ce) !! b) l =
  omap (fun b => entries c !! b) l.
Proof.
  induction l as [|b l IH]; [done|].
  intros [Hne Hl]%not_elem_of_cons. cbn in *.
  rewrite lookup_delete_ne by done. by rewrite (IH Hl).
Qed.

(** Removing entries one by one is unlinking them all and then releasing
    their handles. *)
Lemma foldl_remove_address_split c l :
  NoDup l ->
  foldl remove_address c l =
  foldl release (foldl unlink c l) (omap (fun a => entries c !! a) l).
Proof.
  revert c. induction l as [|a l IH]; intros c Hnd; [done|].
  apply NoDup_cons in Hnd as [Ha Hnd].
  cbn [foldl]. rewrite remove_address_split.
  destruct (entries c !! a) as [ce|] eqn:Hl.
  - rewrite (IH _ Hnd), omap_lookup_unlink by done.
    rewrite foldl_unlink_release. cbn. by rewrite Hl.
  - rewrite (IH _ Hnd), unlink_absent by done. cbn. by rewrite Hl.
Qed.

Lemma NoDup_toRemove addresses c : NoDup (CacheRun.toRemove _ _ addresses c).
Proof. apply NoDup_filter, NoDup_fst_map_to_list. Qed.

Lemma spec_Endpoints_foldl_release c (removed : list (Cache.CacheEntry Endpoint Closer)) :
  Cache.spec_Endpoints _ _ (foldl release c removed) = Cache.spec_Endpoints _ _ c.
Proof.
  revert c. induction removed as [|ce removed IH]; intros c; [done|].
  cbn [foldl]. by rewrite IH.
Qed.

Lemma run_snoc es e r :
  run (es ++ [e]) r =
  match run es r with
  | Some r1 => step e r1
  | None => None
  end.
Proof.
  revert r. induction es as [|e1 es IH]; intros r; simpl.
  - by destruct (step e r).
  - destruct (step e1 r) as [r1|]; [apply IH|done].
Qed.

Lemma after_updates_snoc c us addresses :
  after_updates c (us ++ [addresses]) =
  Cache.spec_Update _ _ Close addresses (after_updates c us).
Proof. unfold CacheRun.after_updates. by rewrite foldl_app. Qed.

(** Every step of the writer keeps the state consistent. *)
Lemma step_consistent c0 us r e r' :
  CacheRun.consistent _ _ Close c0 us r ->
  step e r = Some r' ->
  CacheRun.consistent _ _ Close c0 (us ++ CacheRun.updates [e]) r'.
Proof.
  unfold CacheRun.consistent, CacheRun.step. destruct r as [v lk pc]. simpl.
  intros Hc Hstep.
  destruct e, pc as [|pending staged removals|staged removals|removed];
    try done; simpl in *.
  - destruct Hc as [-> ->]. injection Hstep as <-. simpl.
    split; [done|]. eauto 10.
  - destruct pending as [|a pending]; [done|]. injection Hstep as <-. simpl.
    rewrite app_nil_r. done.
  - destruct pending as [|a pending]; [|done]. destruct lk; [done|].
    injection Hstep as <-. simpl. rewrite app_nil_r.
    destruct Hc as (_ & us' & addresses & -> & Hv & Hr & Hs). simpl in Hs.
    split; [done|]. eauto 10.
  - injection Hstep as <-. simpl. rewrite app_nil_r.
    destruct Hc as (_ & us' & addresses & -> & -> & -> & ->).
    split; [done|].
    rewrite after_updates_snoc, spec_Update_phases.
    symmetry. apply foldl_remove_address_split, NoDup_toRemove.
  - destruct removed as [|ce removed]; [done|]. injection Hstep as <-. simpl.
    rewrite app_nil_r. done.
  - destruct removed as [|ce removed]; [|done]. injection Hstep as <-. simpl.
    rewrite app_nil_r. done.
Qed.

Lemma run_consistent c0 es r :
  run es (idle c0) = Some r ->
  CacheRun.consistent _ _ Close c0 (CacheRun.updates es) r.
Proof.
  revert r. induction es as [|e es IH] using rev_ind; intros r.
  - intros [= <-]. done.
  - rewrite run_snoc. destruct (run es (idle c0)) as [r1|] eqn:Hrun; [|done].
    intros Hstep. unfold CacheRun.updates. rewrite omap_app.
    apply (step_consistent c0 _ r1); [by apply IH|done].
Qed.

Lemma run_app es1 es2 r :
  run (es1 ++ es2) r =
  match run es1 r with
  | Some r1 => run es2 r1
  | None => None
  end.
Proof.
  revert r. induction es1 as [|e es1 IH]; intros r; simpl; [done|].
  destruct (step e r) as [r1|]; [apply IH|done].
Qed.

Lemma run_factories (pending : list string) staged (removals : list string) c lk :
  run (replicate (length pending) CacheRun.CallFactory)
      {| CacheRun.visible := c; CacheRun.locked := lk;
         CacheRun.updating := CacheRun.Adding _ _ pending staged removals |} =
  Some {| CacheRun.visible := c; CacheRun.locked := lk;
          CacheRun.updating :=
            CacheRun.Adding _ _ [] (foldl add_address staged pending) removals |}.
Proof.
  revert staged. induction pending as [|a pending IH]; intros staged; [done|].
  simpl. apply IH.
Qed.

Lemma run_closes (removed : list (Cache.CacheEntry Endpoint Closer)) c lk :
  run (replicate (length removed) CacheRun.CloseHandle)
      {| CacheRun.visible := c; CacheRun.locked := lk;
         CacheRun.updating := CacheRun.Releasing _ _ removed |} =
  Some {| CacheRun.visible := foldl release c removed; CacheRun.locked := lk;
          CacheRun.updating := CacheRun.Releasing _ _ [] |}.
Proof.
  revert c. induction removed as [|ce removed IH]; intros c; [done|].
  simpl. apply IH.
Qed.

(** A call of [Update] runs to its return, and leaves the cache that the
    update applied as a whole gives. *)
Lemma update_completes addresses c :
  run (CacheRun.update_events _ _ addresses c) (idle c) =
  Some (idle (Cache.spec_Update _ _ Close addresses c)).
Proof.
  unfold CacheRun.update_events. cbn [CacheRun.run CacheRun.step CacheRun.idle
    CacheRun.updating CacheRun.visible CacheRun.locked].
  rewrite run_app, run_factories.
  cbn [app CacheRun.run CacheRun.step CacheRun.updating CacheRun.visible
       CacheRun.locked].
  rewrite run_app, run_closes.
  cbn [CacheRun.run CacheRun.step CacheRun.updating CacheRun.visible
       CacheRun.locked].
  unfold CacheRun.idle. f_equal. f_equal.
  rewrite spec_Update_phases.
  symmetry. apply foldl_remove_address_split, NoDup_toRemove.
Qed.

Lemma updates_app es1 es2 :
  CacheRun.updates (es1 ++ es2) = CacheRun.updates es1 ++ CacheRun.updates es2.
Proof. apply omap_app. Qed.

Lemma updates_replicate (n : nat) e :
  CacheRun.updates [e] = [] -> CacheRun.updates (replicate n e) = [].
Proof.
  intros He. induction n as [|n IH]; [done|].
  change (replicate (S n) e) with ([e] ++ replicate n e).
  by rewrite updates_app, He, IH.
Qed.

Lemma updates_update_events addresses c :
  CacheRun.updates (CacheRun.update_events _ _ addresses c) = [addresses].
Proof.
  unfold CacheRun.update_events.
  match goal with
  | |- CacheRun.updates (?e :: ?es) = _ =>
      change (e :: es) with ([e] ++ es)
  end.
  rewrite !updates_app, !updates_replicate by done. done.
Qed.

End CacheRunFacts.

(** ** The subscriber *)

Section SubscriberFacts.

Context {Endpoint Closer Cache : Type} `{!Cache.Ops Endpoint Closer Cache}.

Implicit Types (w : Eureka.world (Cache := Cache)) (e : Eureka.event).

Lemma step_cases e w w' :
  Eureka.step e w = Some (Go.Done w') ->
  (Eureka.quitc (Eureka.sub w') = Eureka.quitc (Eureka.sub w) /\
   Eureka.heap w' = Eureka.heap w) \/
  (e = Eureka.CallStop /\ Eureka.quitc (Eureka.sub w') = None).
Proof.
  destruct e; simpl.
  - destruct (Eureka.loop w); intros [= <-]; auto.
  - destruct (Eureka.loop w); try done.
    destruct (Go.recv_ready _ _); intros [= <-]; auto.
  - destruct (Eureka.watch w); try done.
    destruct (Eureka.loop w); intros [= <-]; auto.
  - destruct (Eureka.watch w); try done.
    destruct (Go.recv_ready _ _); intros [= <-]; auto.
  - unfold Eureka.subscriber_Stop.
    destruct (Eureka.quitc (Eureka.sub w)) as [q|] eqn:Hq.
    + simpl. destruct (Go.is_closed _ _); simpl; intros [= <-]; auto.
    + intros [= <-]. auto.
Qed.

Lemma reachable_quitc_open w : Eureka.reachable w -> quitc_open w.
Proof.
  induction 1 as [name factory logger | w e w' Hreach IH Hstep].
  - intros q [= <-]. reflexivity.
  - intros q Hq. destruct (step_cases _ _ _ Hstep) as [[Hq' Hh] | [_ Hnone]].
    + rewrite Hh. apply IH. by rewrite <- Hq'.
    + congruence.
Qed.

(** [Stop] on a subscriber that is stopped changes nothing. *)
Lemma subscriber_Stop_stopped w :
  Eureka.quitc (Eureka.sub w) = None -> Eureka.subscriber_Stop w = Go.Done w.
Proof. unfold Eureka.subscriber_Stop. by intros ->. Qed.

(** [Stop] never panics, and a second [Stop] has no effect. *)
Lemma subscriber_Stop_idempotent w :
  Eureka.reachable w ->
  exists w1, Eureka.subscriber_Stop w = Go.Done w1 /\
             Eureka.quitc (Eureka.sub w1) = None /\
             Eureka.subscriber_Stop w1 = Go.Done w1.
Proof.
  intros Hreach. pose proof (reachable_quitc_open w Hreach) as Hopen.
  unfold Eureka.subscriber_Stop at 1.
  destruct (Eureka.quitc (Eureka.sub w)) as [q|] eqn:Hq.
  - simpl. rewrite (Hopen q Hq). simpl. eexists. split; [done|]. split; [done|].
    by apply subscriber_Stop_stopped.
  - exists w. split; [done|]. split; [done|]. by apply subscriber_Stop_stopped.
Qed.

(** A loop that waits in its select on the channel of [s.quitc] can
    leave as soon as [Stop] has closed it. *)
Lemma subscriber_Stop_releases_waiting_loop w q :
  Eureka.reachable w ->
  Eureka.quitc (Eureka.sub w) = Some q ->
  Eureka.loop w = Eureka.LoopWait (Some q) ->
  exists w1, Eureka.subscriber_Stop w = Go.Done w1 /\
             Eureka.step Eureka.LoopQuit w1 =
               Some (Go.Done (Eureka.set_loop w1 Eureka.LoopReturned)).
Proof.
  intros Hreach Hq Hloop. pose proof (reachable_quitc_open w Hreach q Hq) as Hopen.
  unfold Eureka.subscriber_Stop. rewrite Hq. simpl. rewrite Hopen. simpl.
  eexists. split; [done|]. simpl. rewrite Hloop. simpl.
  unfold Go.is_closed. simpl. rewrite bool_decide_eq_true_2; [done|].
  set_solver.
Qed.

(** *** A loop that reads [s.quitc] after [Stop] has cleared it *)

Lemma loop_missed_stop_step e w :
  loop_missed_stop w ->
  Eureka.step e w = None \/
  exists w', Eureka.step e w = Some (Go.Done w') /\ loop_missed_stop w'.
Proof.
  intros [Hq Hloop]. unfold loop_missed_stop.
  destruct e; simpl.
  - destruct Hloop as [-> | [-> | ->]]; [right | right | left; done];
      eexists; (split; [done|]); simpl; rewrite ?Hq; auto.
  - destruct Hloop as [-> | [-> | ->]]; left; done.
  - destruct (Eureka.watch w); [by left | | by left].
    destruct Hloop as [-> | [-> | ->]]; [by left | by left | right].
    eexists; (split; [done|]); simpl; auto.
  - destruct (Eureka.watch w); [by left | | by left].
    destruct (Go.recv_ready _ _); [right | by left].
    eexists; (split; [done|]); simpl; auto.
  - right. exists w. rewrite subscriber_Stop_stopped by done. auto.
Qed.

Lemma loop_missed_stop_run sched w :
  loop_missed_stop w ->
  exists w', Eureka.run sched w = Go.Done w' /\ loop_missed_stop w'.
Proof.
  revert w. induction sched as [|e sched IH]; intros w Hw; simpl.
  - eauto.
  - destruct (loop_missed_stop_step e w Hw) as [-> | (w1 & -> & Hw1)]; simpl; eauto.
Qed.

Lemma watch_missed_stop_step e w :
  watch_missed_stop w ->
  Eureka.step e w = None \/
  exists w', Eureka.step e w = Some (Go.Done w') /\ watch_missed_stop w'.
Proof.
  intros [Hl Hw].
  destruct (loop_missed_stop_step e w Hl) as [? | (w' & Hstep & Hl')]; [by left|].
  right. exists w'. split; [done|]. split; [done|].
  destruct Hl as [Hq Hloop].
  destruct e; simpl in Hstep.
  - destruct Hw as [[Hs Hn] | Hwatch].
    + rewrite Hs in Hstep. injection Hstep as <-. simpl. rewrite Hq. auto.
    + destruct (Eureka.loop w); try done; injection Hstep as <-; simpl;
        rewrite ?Hq; auto.
  - destruct (Eureka.loop w); try done.
    destruct (Go.recv_ready _ _); try done. injection Hstep as <-.
    destruct Hl' as [_ [? | [? | ?]]]; done.
  - destruct Hw as [[Hs Hn] | Hwatch].
    + rewrite Hn in Hstep. done.
    + rewrite Hwatch in Hstep.
      destruct (Eureka.loop w); try done; injection Hstep as <-; simpl; auto.
  - destruct Hw as [[Hs Hn] | Hwatch].
    + rewrite Hn in Hstep. done.
    + rewrite Hwatch in Hstep. simpl in Hstep. done.
  - rewrite subscriber_Stop_stopped in Hstep by done. injection Hstep as <-. auto.
Qed.

Lemma watch_missed_stop_run sched w :
  watch_missed_stop w ->
  exists w', Eureka.run sched w = Go.Done w' /\ watch_missed_stop w'.
Proof.
  revert w. induction sched as [|e sched IH]; intros w Hw; simpl.
  - eauto.
  - destruct (watch_missed_stop_step e w Hw) as [-> | (w1 & -> & Hw1)]; simpl; eauto.
Qed.

(** C4.  [Stop] called before the goroutine of [loop] has run: the call
    does not panic and closes the channel, and a second call changes
    nothing; but the loop then reads [s.quitc] as nil, hands the nil channel
    to [WatchEntries] and selects on it, so under no schedule does the
    loop or the watcher ever return. *)
Theorem subscriber_Stop_before_loop_runs_leaks
    (name : string) (factory : string -> Endpoint * option Closer + Go.error)
    (logger : Log.Logger) (sched : list Eureka.event) :
  exists w1 w',
    Eureka.subscriber_Stop (Eureka.NewSubscriber name factory logger) = Go.Done w1 /\
    Go.is_closed (Eureka.heap w1) 0%nat = true /\
    Eureka.subscriber_Stop w1 = Go.Done w1 /\
    ~ Eureka.loop_can_quit w1 /\
    Eureka.run sched w1 = Go.Done w' /\
    Eureka.loop w' <> Eureka.LoopReturned /\
    Eureka.watch w' <> Eureka.WatchReturned.
Proof.
  set (w0 := Eureka.NewSubscriber name factory logger).
  destruct (subscriber_Stop_idempotent w0 (Eureka.reach_new _ _ _))
    as (w1 & Hstop & Hq1 & Hstop1).
  assert (Hw1 : watch_missed_stop w1).
  { revert Hstop. unfold Eureka.subscriber_Stop. simpl. intros [= <-].
    repeat split; simpl; auto. }
  destruct (watch_missed_stop_run sched w1 Hw1) as (w' & Hrun & [[_ Hl] Hw]).
  exists w1, w'. split; [done|]. split.
  { revert Hstop. unfold Eureka.subscriber_Stop. simpl. by intros [= <-]. }
  split; [done|]. split.
  { intros (sched' & w'' & Hrun' & Hret).
    destruct (loop_missed_stop_run sched' w1 (proj1 Hw1)) as (w2 & Hrun2 & [_ Hl2]).
    rewrite Hrun' in Hrun2. injection Hrun2 as ->.
    rewrite Hret in Hl2. destruct Hl2 as [? | [? | ?]]; done. }
  split; [done|]. split.
  - destruct Hl as [-> | [-> | ->]]; done.
  - destruct Hw as [[_ ->] | ->]; done.
Qed.

(** *** Reading the endpoints *)

Lemma step_keeps_cache e w w' :
  is_Deliver e = false ->
  Eureka.step e w = Some (Go.Done w') ->
  Eureka.cache (Eureka.sub w') = Eureka.cache (Eureka.sub w).
Proof.
  destruct e; simpl; try done; intros _.
  - destruct (Eureka.loop w); intros [= <-]; done.
  - destruct (Eureka.loop w); try done.
    destruct (Go.recv_ready _ _); intros [= <-]; done.
  - destruct (Eureka.watch w); try done.
    destruct (Go.recv_ready _ _); intros [= <-]; done.
  - unfold Eureka.subscriber_Stop.
    destruct (Eureka.quitc (Eureka.sub w)) as [q|]; simpl.
    + destruct (Go.is_closed _ _); simpl; intros [= <-]; done.
    + intros [= <-]; done.
Qed.

Lemma run_keeps_cache sched w w' :
  forallb (fun e => negb (is_Deliver e)) sched = true ->
  Eureka.run sched w = Go.Done w' ->
  Eureka.cache (Eureka.sub w') = Eureka.cache (Eureka.sub w).
Proof.
  revert w. induction sched as [|e sched IH]; intros w; simpl.
  - by intros _ [= <-].
  - intros [He Hs]%andb_true_iff. apply negb_true_iff in He.
    destruct (Eureka.step e w) as [[w1|msg]|] eqn:Hstep; simpl.
    + intros Hrun. rewrite (IH w1 Hs Hrun). by apply (step_keeps_cache e).
    + done.
    + by apply IH.
Qed.

End SubscriberFacts.

(** *** The fresh subscriber *)

Section FreshSubscriber.

Context {Endpoint Closer Cache : Type} (ops : Cache.Ops Endpoint Closer Cache).

(** C8.  [NewSubscriber] applies the empty update to the cache it has just
    made, and only then spawns the loop: in the world it returns the cache
    is the new cache after [Update([])], the loop goroutine has not run and
    no watcher exists.  It is this update, not the making of the cache,
    that gives the defined start: with any cache whose snapshot is empty
    after an empty update, whatever it is made with, [Endpoints] on the
    fresh subscriber returns the empty list with a nil error, and keeps
    doing so along every schedule in which the backend delivers no
    update. *)
Theorem NewSubscriber_starts_empty
    (name : string) (factory : string -> Endpoint * option Closer + Go.error)
    (logger : Log.Logger) :
  empties_on_empty_Update ops ->
  let w := Eureka.NewSubscriber (H := ops) name factory logger in
  Eureka.cache (Eureka.sub w) = Cache.Update [] (Cache.New factory logger) /\
  Eureka.loop w = Eureka.LoopStart /\
  Eureka.watch w = Eureka.WatchNone /\
  Eureka.subscriber_Endpoints (H := ops) (Eureka.sub w) = ([], None) /\
  (forall sched w',
     forallb (fun e => negb (is_Deliver e)) sched = true ->
     Eureka.run (H := ops) sched w = Go.Done w' ->
     Eureka.subscriber_Endpoints (H := ops) (Eureka.sub w') = ([], None)).
Proof.
  intros Hlaw w. split; [done|]. split; [done|]. split; [done|].
  assert (Hempty : Eureka.subscriber_Endpoints (H := ops) (Eureka.sub w) = ([], None)).
  { unfold Eureka.subscriber_Endpoints. simpl. by rewrite Hlaw. }
  split; [done|].
  intros sched w' Hsched Hrun.
  unfold Eureka.subscriber_Endpoints in *.
  by rewrite (run_keeps_cache (H := ops) sched w w' Hsched Hrun).
Qed.

End FreshSubscriber.

(** *** The subscriber over the cache of the spec *)

Section SubscriberOverSpecCache.

Context {Endpoint Closer : Type} (Close : Closer -> option Go.error).

Local Abbreviation ops := (Cache.spec_Ops Endpoint Closer Close).


End SubscriberOverSpecCache.

(** ** Errors of the backend *)

Lemma client_WatchEntries_updates (us : list Fargo.AppUpdate)
    (rest : list Eureka.watch_case) :
  Eureka.client_WatchEntries ((Eureka.CaseUpdate <$> us) ++ rest) =
  (Eureka.forwarded <$> us) ++ Eureka.client_WatchEntries rest.
Proof.
  induction us as [|u us IH]; [done|]. cbn. f_equal. exact IH.
Qed.

(** C10.  An update that carries an error is forwarded by [WatchEntries] as
    the empty list, in its place among the other updates; the loop of the
    subscriber hands that list to the cache, whose snapshot is empty from
    then on, whatever it held before.  And [Register] returns nil when the
    name resolves, whatever the heartbeat returns. *)
Theorem WatchEntries_forwards_error_as_empty
    {Endpoint Closer : Type} (Close : Closer -> option Go.error)
    (seconds_int32 : Z -> Z)
    (json_Marshal : gmap string string -> string + Go.error)
    (u : Fargo.AppUpdate) (err : Go.error) :
  Fargo.UpdErr u = Some err ->
  (forall before rest,
     Eureka.client_WatchEntries
       ((Eureka.CaseUpdate <$> before) ++ Eureka.CaseUpdate u :: rest) =
     (Eureka.forwarded <$> before) ++ [] :: Eureka.client_WatchEntries rest) /\
  (forall (w : Eureka.world (Cache := Cache.Cache Endpoint Closer)) d q,
     Eureka.watch w = Eureka.Watching d ->
     Eureka.loop w = Eureka.LoopWait q ->
     exists w',
       Eureka.step (H := Cache.spec_Ops _ _ Close) (Eureka.Deliver u) w =
         Some (Go.Done w') /\
       Eureka.cache (Eureka.sub w') =
         Cache.spec_Update _ _ Close [] (Eureka.cache (Eureka.sub w)) /\
       Eureka.subscriber_Endpoints (H := Cache.spec_Ops _ _ Close) (Eureka.sub w') =
         ([], None)) /\
  (forall (C : Type) (conn : Eureka.fargoConnection C)
          (s : Eureka.Service) (c c1 : C) (app : Fargo.Application),
     Eureka.GetApp (Eureka.Name s) c = (inl app, c1) ->
     Eureka.client_Register seconds_int32 json_Marshal s c =
       (None, (Eureka.HeartBeatInstance
                 (Eureka.serviceToInstance seconds_int32 json_Marshal s) c1).2)).
Proof.
  intros Herr.
  assert (Hfwd : Eureka.forwarded u = []).
  { unfold Eureka.forwarded. by rewrite Herr. }
  split; [|split].
  - intros before rest.
    rewrite client_WatchEntries_updates. simpl. by rewrite Hfwd.
  - intros w d q Hwatch Hloop. simpl. rewrite Hwatch, Hloop, Hfwd.
    eexists. split; [done|]. split; [done|].
    unfold Eureka.subscriber_Endpoints. simpl.
    by rewrite (spec_Update_nil_Endpoints Close).
  - intros C conn s c c1 app Hget.
    by apply (client_Register_renews seconds_int32 json_Marshal s c c1 app).
Qed.

(** ** The periodic registrar *)

Section PeriodicFacts.

Context {R : Type} `{!Sd.Registrar R}.

Implicit Types (w : Sd.world (R := R)) (e : Sd.event).

Lemma periodic_Register_running w :
  Running w -> Sd.periodic_Register w = w.
Proof. intros [q Hq]. unfold Sd.periodic_Register. by rewrite Hq. Qed.

Lemma periodic_Register_stopped w :
  Sd.quitc (Sd.p w) = None ->
  Sd.periodic_Register w =
    {| Sd.p := {| Sd.registrar := Sd.registrar (Sd.p w);
                  Sd.interval := Sd.interval (Sd.p w);
                  Sd.quitc := Some (Go.made (Sd.heap w)) |};
       Sd.heap := {| Go.made := S (Go.made (Sd.heap w));
                     Go.closed := Go.closed (Sd.heap w) |};
       Sd.loops := Sd.loops w ++ [Sd.LoopSelect];
       Sd.stdout := Sd.stdout w |}.
Proof. intros Hq. unfold Sd.periodic_Register. by rewrite Hq. Qed.

Lemma periodic_Deregister_stopped w :
  Sd.quitc (Sd.p w) = None ->
  Sd.periodic_Deregister w = Go.Panic "close of nil channel".
Proof. intros Hq. unfold Sd.periodic_Deregister. by rewrite Hq. Qed.

Lemma quitc_fresh_step e w w' :
  quitc_fresh w -> Sd.step e w = Some (Go.Done w') -> quitc_fresh w'.
Proof.
  intros [Hclosed Hq]. destruct e; simpl.
  - destruct (Sd.loops w !! i) as [[]|]; try done. by intros [= <-].
  - destruct (Sd.loops w !! i) as [[]|]; try done.
    destruct (Go.recv_ready _ _); [|done]. by intros [= <-].
  - destruct (Sd.loops w !! i) as [[]|]; try done. by intros [= <-].
  - intros [= <-]. unfold Sd.periodic_Register.
    destruct (Sd.quitc (Sd.p w)) as [q|] eqn:Heq; [split; [done|]; by rewrite Heq|].
    split; simpl.
    + intros c Hc. apply Hclosed in Hc. lia.
    + intros q [= <-]. split; [lia|]. intros Hc. apply Hclosed in Hc. lia.
  - unfold Sd.periodic_Deregister.
    destruct (Sd.quitc (Sd.p w)) as [q|] eqn:Heq; [|done]. simpl.
    destruct (Go.is_closed _ _); [done|]. simpl. intros [= <-].
    split; simpl; [|done].
    intros c [->%elem_of_singleton | Hc]%elem_of_union.
    + by apply Hq.
    + by apply Hclosed.
Qed.

Lemma reachable_quitc_fresh w : Sd.reachable w -> quitc_fresh w.
Proof.
  induction 1 as [r i | w e w' _ IH Hstep].
  - split; simpl; [set_solver | done].
  - by apply (quitc_fresh_step e w).
Qed.

(** C1.  [Deregister] on a registrar that is stopped panics: on the one the
    constructor returns, where [p.quitc] is nil, and on one that has been
    registered and deregistered, where [Deregister] has set it back to
    nil.  The panic is the close of the nil channel (never the close of a
    closed one). *)
Theorem periodic_Deregister_stopped_panics (r : R) (interval : Z) :
  Sd.periodic_Deregister (Sd.NewPeriodicRegistrar r interval) =
    Go.Panic "close of nil channel" /\
  exists w1,
    Sd.periodic_Deregister
      (Sd.periodic_Register (Sd.NewPeriodicRegistrar r interval)) = Go.Done w1 /\
    Sd.periodic_Deregister w1 = Go.Panic "close of nil channel".
Proof.
  split; [done|]. eexists. split; [reflexivity|]. reflexivity.
Qed.

(** *** One loop, one call per interval *)

Lemma one_interval_single w :
  Sd.loops w = [Sd.LoopSelect] ->
  Sd.one_interval w =
    Go.Done {| Sd.p := {| Sd.registrar := Sd.Register (Sd.registrar (Sd.p w));
                          Sd.interval := Sd.interval (Sd.p w);
                          Sd.quitc := Sd.quitc (Sd.p w) |};
               Sd.heap := Sd.heap w;
               Sd.loops := [Sd.LoopSelect];
               Sd.stdout := Sd.stdout w ++ ["REG"] |}.
Proof.
  destruct w as [pr h l out]. simpl. intros ->. reflexivity.
Qed.

Lemma intervals_single n w :
  Sd.loops w = [Sd.LoopSelect] ->
  exists w', Sd.intervals n w = Go.Done w' /\
             Sd.loops w' = [Sd.LoopSelect] /\
             Sd.quitc (Sd.p w') = Sd.quitc (Sd.p w) /\
             Sd.registrar (Sd.p w') = Nat.iter n Sd.Register (Sd.registrar (Sd.p w)) /\
             Sd.stdout w' = Sd.stdout w ++ replicate n "REG".
Proof.
  revert w. induction n as [|n IH]; intros w Hl; simpl.
  - exists w. by rewrite app_nil_r.
  - rewrite (one_interval_single w Hl). simpl.
    edestruct IH as (w' & -> & Hl' & Hq' & Hr' & Hs'); [reflexivity|].
    exists w'. split; [done|]. split; [done|]. split; [done|].
    simpl in Hr', Hs'. split.
    + rewrite Hr'. clear. induction n as [|n IHn]; simpl; [done|]. by rewrite IHn.
    + by rewrite Hs', <- app_assoc.
Qed.

(** C2.  [Register] on a running registrar changes nothing.  So on a new
    registrar the second of two [Register] calls is a no-op: one loop
    goroutine exists, and after [n] intervals it is still the only one and
    the underlying [Register] has been called [n] times. *)
Theorem periodic_Register_idempotent (r : R) (interval : Z) (n : nat) :
  let w1 := Sd.periodic_Register (Sd.NewPeriodicRegistrar r interval) in
  (forall w, Running w -> Sd.periodic_Register w = w) /\
  Running w1 /\
  Sd.periodic_Register w1 = w1 /\
  Sd.active_loops (Sd.periodic_Register w1) = [Sd.LoopSelect] /\
  exists w',
    Sd.intervals n (Sd.periodic_Register w1) = Go.Done w' /\
    length (Sd.active_loops w') = 1%nat /\
    Sd.registrar (Sd.p w') = Nat.iter n Sd.Register r /\
    Sd.stdout w' = replicate n "REG".
Proof.
  intros w1. split; [exact periodic_Register_running|].
  assert (Hrun : Running w1) by (by eexists).
  split; [done|]. rewrite (periodic_Register_running w1 Hrun).
  split; [done|]. split; [done|].
  destruct (intervals_single n w1 eq_refl) as (w' & Hi & Hl & _ & Hr & Hs).
  exists w'. split; [done|]. split; [|done].
  unfold Sd.active_loops. by rewrite Hl.
Qed.

(** C3, as the code has it.  [Deregister] on a running registrar closes
    the channel of [p.quitc], sets [p.quitc] to nil and calls the
    underlying [Deregister] once, in that order and without waiting: no
    loop goroutine has moved when it returns.  A loop that waits in its
    select on that channel can take its quit case from then on. *)
Theorem periodic_Deregister_signals_without_waiting w q :
  Sd.reachable w ->
  Sd.quitc (Sd.p w) = Some q ->
  exists w',
    Sd.periodic_Deregister w = Go.Done w' /\
    Go.is_closed (Sd.heap w') q = true /\
    Sd.quitc (Sd.p w') = None /\
    Sd.registrar (Sd.p w') = Sd.Deregister (Sd.registrar (Sd.p w)) /\
    Sd.loops w' = Sd.loops w /\
    (forall i, Sd.loops w !! i = Some (Sd.LoopWait (Some q)) ->
       Sd.step (Sd.Quit i) w' =
         Some (Go.Done (Sd.set_loop w' i Sd.LoopReturned))).
Proof.
  intros Hreach Hq.
  destruct (reachable_quitc_fresh w Hreach) as [_ Hfresh].
  pose proof (Hfresh q Hq) as [_ Hopen].
  unfold Sd.periodic_Deregister. rewrite Hq. simpl.
  unfold Go.is_closed at 1. rewrite bool_decide_eq_false_2 by done. simpl.
  eexists. split; [reflexivity|]. simpl.
  assert (Hclosed : Go.is_closed
            {| Go.made := Go.made (Sd.heap w);
               Go.closed := {[q]} ∪ Go.closed (Sd.heap w) |} q = true).
  { unfold Go.is_closed. simpl. apply bool_decide_eq_true_2.
    apply elem_of_union. left. by apply elem_of_singleton. }
  repeat split; try done.
  intros i Hi. rewrite Hi. simpl. by rewrite Hclosed.
Qed.

End PeriodicFacts.

(** *** Examples with a registrar that counts its calls *)

Lemma waiting_registrar_reachable : Sd.reachable waiting_registrar.
Proof.
  apply (Sd.reach_step
           (Sd.periodic_Register (Sd.NewPeriodicRegistrar noCalls 30)) (Sd.Enter 0)).
  - apply (Sd.reach_step (Sd.NewPeriodicRegistrar noCalls 30) Sd.CallRegister).
    + apply Sd.reach_new.
    + reflexivity.
  - reflexivity.
Defined.

Lemma periodic_Register_idempotent_witness :
  Sd.periodic_Register waiting_registrar = waiting_registrar /\
  exists w',
    Sd.intervals 3
      (Sd.periodic_Register
         (Sd.periodic_Register (Sd.NewPeriodicRegistrar noCalls 30))) = Go.Done w' /\
    length (Sd.active_loops w') = 1%nat /\
    Sd.registerCalls (Sd.registrar (Sd.p w')) = 3%nat.
Proof.
  destruct (periodic_Register_idempotent noCalls 30 3)
    as (Hnoop & _ & _ & _ & w' & Hi & Hl & Hr & _).
  split.
  - apply Hnoop. exists 0%nat. reflexivity.
  - exists w'. split; [exact Hi|]. split; [exact Hl|]. rewrite Hr. reflexivity.
Defined.

Lemma periodic_Deregister_signals_without_waiting_witness :
  exists w',
    Sd.periodic_Deregister waiting_registrar = Go.Done w' /\
    Sd.deregisterCalls (Sd.registrar (Sd.p w')) = 1%nat /\
    Sd.step (Sd.Quit 0) w' = Some (Go.Done (Sd.set_loop w' 0 Sd.LoopReturned)).
Proof.
  destruct (periodic_Deregister_signals_without_waiting waiting_registrar 0%nat
              waiting_registrar_reachable eq_refl)
    as (w' & Hd & _ & _ & Hr & _ & Hquit).
  exists w'. split; [exact Hd|]. split.
  - rewrite Hr. reflexivity.
  - apply Hquit. reflexivity.
Defined.

(** C3 as stated fails: on the running registrar whose loop waits in its
    select, [Deregister] returns, having called the underlying
    [Deregister], while that loop goroutine has not returned. *)
Lemma periodic_Deregister_returns_while_loop_runs :
  Sd.reachable waiting_registrar /\
  Running waiting_registrar /\
  exists w',
    Sd.periodic_Deregister waiting_registrar = Go.Done w' /\
    Sd.deregisterCalls (Sd.registrar (Sd.p w')) = 1%nat /\
    Sd.active_loops w' = [Sd.LoopWait (Some 0%nat)] /\
    ~ (forall l, l ∈ Sd.loops w' -> l = Sd.LoopReturned).
Proof.
  split; [exact waiting_registrar_reachable|].
  split; [by exists 0%nat|].
  eexists. split; [reflexivity|]. split; [reflexivity|]. split; [reflexivity|].
  intros Hall.
  assert (Hret : Sd.LoopWait (Some 0%nat) = Sd.LoopReturned) by (apply Hall; left).
  discriminate Hret.
Qed.

(** *** Examples with the factory of the subscriber tests *)


Lemma NewSubscriber_starts_empty_witness :
  Eureka.cache (Eureka.sub (Eureka.NewSubscriber (H := recording_cache)
                              "foo.bar.baz" testFactory Log.NewNopLogger)) = [[]] /\
  Eureka.cache (Eureka.sub test_subscriber) =
    Cache.Update [] (Cache.New testFactory Log.NewNopLogger) /\
  Eureka.subscriber_Endpoints (Eureka.sub test_subscriber) = ([], None) /\
  exists w',
    Eureka.run [Eureka.RunLoop; Eureka.RunLoop; Eureka.CallStop; Eureka.LoopQuit]
      test_subscriber = Go.Done w' /\
    Eureka.loop w' = Eureka.LoopReturned /\
    Eureka.subscriber_Endpoints (Eureka.sub w') = ([], None).
Proof.
  split.
  { exact (proj1 (NewSubscriber_starts_empty recording_cache "foo.bar.baz"
                    testFactory Log.NewNopLogger (fun calls => eq_refl))). }
  destruct (NewSubscriber_starts_empty test_cache "foo.bar.baz" testFactory
              Log.NewNopLogger (spec_Update_nil_Endpoints noClose))
    as (Hcache & _ & _ & Hnow & Hlater).
  split; [exact Hcache|]. split; [exact Hnow|].
  eexists. split; [reflexivity|]. split; [reflexivity|].
  apply (Hlater [Eureka.RunLoop; Eureka.RunLoop; Eureka.CallStop; Eureka.LoopQuit]).
  - reflexivity.
  - reflexivity.
Defined.

Lemma WatchEntries_forwards_error_as_empty_witness :
  Eureka.client_WatchEntries [Eureka.CaseUpdate failed_update; Eureka.CaseDone] = [[]] /\
  (Eureka.mock_HeartBeatInstance
     (Eureka.serviceToInstance whole_seconds marshal_keys
        (Eureka.testService "name" "b" 987))
     other_host_registered).1 = Some "Instance not registered" /\
  (Eureka.client_Register whole_seconds marshal_keys
     (Eureka.testService "name" "b" 987) other_host_registered).1 = None.
Proof.
  destruct (WatchEntries_forwards_error_as_empty (Endpoint := string) noClose
              whole_seconds marshal_keys
              failed_update "poll failed" eq_refl) as (Hfwd & _ & Hreg).
  split; [exact (Hfwd [] [Eureka.CaseDone])|].
  split; [reflexivity|].
  erewrite (Hreg Eureka.mockConn _ (Eureka.testService "name" "b" 987)
              other_host_registered).
  - reflexivity.
  - reflexivity.
Defined.

(** * Further properties *)

(** ** The client on the registry of the tests *)

Section MockRegistryFacts.

Variable seconds_int32 : Z -> Z.
Variable json_Marshal : gmap string string -> string + Go.error.

Local Abbreviation toInstance := (Eureka.serviceToInstance seconds_int32 json_Marshal).
Local Abbreviation Register := (Eureka.client_Register seconds_int32 json_Marshal).
Local Abbreviation Deregister := (Eureka.client_Deregister seconds_int32 json_Marshal).

Implicit Types (mc : Eureka.mockConn) (s : Eureka.Service) (i : Fargo.Instance).

Lemma entry_None_hosts mc i :
  Eureka.entry mc i = None <->
  Fargo.HostName i ∉ (fun e => Fargo.HostName (Eureka.instance e)) <$> Eureka.registry mc.
Proof.
  unfold Eureka.entry. rewrite entry_from_None, Forall_forall.
  rewrite list_elem_of_fmap. split.
  - intros Hall (e & Heq & Hin). by apply (Hall e).
  - intros Hnot e Hin Heq. apply Hnot. by exists e.
Qed.

Lemma entry_Some_lookup mc i idx e :
  Eureka.entry mc i = Some (idx, e) ->
  Eureka.registry mc !! idx = Some e /\
  Fargo.HostName (Eureka.instance e) = Fargo.HostName i.
Proof.
  intros Hentry. apply entry_from_Some in Hentry as (_ & Hl & Hh).
  by rewrite Nat.sub_0_r in Hl.
Qed.

Lemma client_Register_known_name s mc :
  Eureka.instances mc (Eureka.Name s) <> [] ->
  Register s mc = (None, (Eureka.mock_HeartBeatInstance (toInstance s) mc).2).
Proof.
  intros Hsome.
  exact (client_Register_renews seconds_int32 json_Marshal s mc mc _
           (mock_GetApp_found _ _ Hsome)).
Qed.

Lemma client_Register_unknown_name s mc :
  Eureka.instances mc (Eureka.Name s) = [] ->
  Register s mc = Eureka.mock_RegisterInstance (toInstance s) mc.
Proof.
  intros Hnone.
  exact (client_Register_announces seconds_int32 json_Marshal s mc mc _
           (mock_GetApp_missing _ _ Hnone)).
Qed.

Lemma mock_HeartBeatInstance_instances i mc :
  Eureka.instance <$> Eureka.registry (Eureka.mock_HeartBeatInstance i mc).2 =
  Eureka.instance <$> Eureka.registry mc.
Proof.
  unfold Eureka.mock_HeartBeatInstance.
  destruct (Eureka.entry mc i) as [[idx e]|] eqn:Hentry; simpl; [|done].
  apply entry_Some_lookup in Hentry as [Hl _].
  rewrite list_fmap_insert. simpl. apply list_insert_id.
  by rewrite list_lookup_fmap, Hl.
Qed.

Lemma instances_of_registry mc name :
  Eureka.instances mc name =
  filter (fun i => Fargo.App i = name) (Eureka.instance <$> Eureka.registry mc).
Proof.
  unfold Eureka.instances. destruct mc as [reg]. simpl.
  induction reg as [|e reg IH]; [done|].
  rewrite fmap_cons, !filter_cons. simpl.
  case_decide; simpl; by rewrite IH.
Qed.

Lemma client_Register_fresh_then_Deregister s mc :
  Eureka.instances mc (Eureka.Name s) = [] ->
  Eureka.entry mc (toInstance s) = None ->
  (Register s mc).1 = None /\
  Deregister s (Register s mc).2 = (None, mc).
Proof.
  intros Hname Hhost.
  rewrite client_Register_unknown_name by done.
  unfold Eureka.mock_RegisterInstance. rewrite Hhost. simpl. split; [done|].
  unfold Eureka.client_Deregister. simpl.
  unfold Eureka.mock_DeregisterInstance, Eureka.entry. simpl.
  rewrite (entry_from_snoc 0 (Eureka.registry mc) _ (toInstance s)) by done.
  simpl. rewrite take_app_length.
  replace (S (length (Eureka.registry mc)))
    with (length (Eureka.registry mc ++ [{| Eureka.instance := toInstance s;
                                            Eureka.heartbeats := 0 |}])).
  - rewrite drop_all, app_nil_r. by destruct mc.
  - rewrite length_app. simpl. lia.
Qed.

(** X1.  Round trip: a service whose name and host the registry does not
    know is registered by [Register] and removed again by [Deregister],
    both returning nil, and the registry is as before. *)
Theorem client_Register_Deregister_round_trip s mc :
  Eureka.instances mc (Eureka.Name s) = [] ->
  Eureka.entry mc (toInstance s) = None ->
  (Register s mc).1 = None /\
  Deregister s (Register s mc).2 = (None, mc).
Proof.
  intros Hname Hhost. by apply client_Register_fresh_then_Deregister.
Qed.

(** X2.  [Deregister] is not idempotent: on a registry with unique host
    names, once it has removed the entry of the host, a repeated
    [Deregister] returns the error "Instance not registered" and changes
    nothing. *)
Theorem client_Deregister_twice_fails s mc mc' :
  hosts_unique mc ->
  Deregister s mc = (None, mc') ->
  length (Eureka.registry mc') = pred (length (Eureka.registry mc)) /\
  Deregister s mc' = (Some "Instance not registered", mc').
Proof.
  unfold hosts_unique, Eureka.client_Deregister. simpl.
  unfold Eureka.mock_DeregisterInstance at 1.
  destruct (Eureka.entry mc (toInstance s)) as [[idx e]|] eqn:Hentry; [|done].
  intros Huniq [= <-]. simpl.
  apply entry_Some_lookup in Hentry as [Hl Hh].
  rewrite <- delete_take_drop. split.
  { rewrite length_delete by eauto. lia. }
  assert (Hnone : Eureka.entry {| Eureka.registry := delete idx (Eureka.registry mc) |}
                    (toInstance s) = None).
  { apply entry_None_hosts. simpl.
    rewrite <- (take_drop_middle _ _ _ Hl) in Huniq.
    rewrite fmap_app, fmap_cons in Huniq.
    apply NoDup_app in Huniq as (_ & Hleft & Hright).
    apply NoDup_cons in Hright as [Hright _].
    rewrite delete_take_drop, fmap_app. intros [Hin|Hin]%elem_of_app.
    - apply (Hleft _ Hin). rewrite Hh. left.
    - apply Hright. by rewrite Hh. }
  unfold Eureka.mock_DeregisterInstance. by rewrite Hnone.
Qed.

(** X3.  The client keeps host names unique: from a registry with unique
    host names, [Register] and [Deregister] lead to one, whatever they
    return, and [GetEntries] leaves the registry as it is. *)
Theorem client_keeps_hosts_unique s mc name :
  hosts_unique mc ->
  hosts_unique (Register s mc).2 /\
  hosts_unique (Deregister s mc).2 /\
  (Eureka.client_GetEntries name mc).2 = mc.
Proof.
  unfold hosts_unique. intros Huniq. split; [|split].
  - destruct (decide (Eureka.instances mc (Eureka.Name s) = [])) as [Hn|Hn].
    + rewrite client_Register_unknown_name by done.
      unfold Eureka.mock_RegisterInstance.
      destruct (Eureka.entry mc (toInstance s)) as [[idx e]|] eqn:Hentry; [done|].
      simpl. rewrite fmap_app. apply NoDup_app. split; [done|]. split.
      * intros h Hin [->|[]%elem_of_nil]%elem_of_cons.
        by apply entry_None_hosts in Hentry.
      * apply NoDup_singleton.
    + rewrite client_Register_known_name by done. simpl.
      assert (Hc : forall l : list Eureka.registryEntry,
                 (fun e => Fargo.HostName (Eureka.instance e)) <$> l =
                 Fargo.HostName <$> (Eureka.instance <$> l)).
      { intros l. by rewrite <- list_fmap_compose. }
      rewrite Hc in *. by rewrite mock_HeartBeatInstance_instances.
  - unfold Eureka.client_Deregister. simpl. unfold Eureka.mock_DeregisterInstance.
    destruct (Eureka.entry mc (toInstance s)) as [[idx e]|]; [|done]. simpl.
    rewrite <- delete_take_drop.
    apply (sublist_NoDup _ _ Huniq). apply fmap_sublist, sublist_delete.
  - unfold Eureka.client_GetEntries. simpl. unfold Eureka.mock_GetApp.
    by destruct (Eureka.instances mc name).
Qed.

(** X4.  A second host under a name the registry already resolves is never
    registered: [Register] sends the heartbeat, which fails because the
    host has no entry, drops that error and returns nil; the registry is
    unchanged, however often [Register] is called. *)
Theorem client_Register_never_adds_second_host s mc (n : nat) :
  Eureka.instances mc (Eureka.Name s) <> [] ->
  Eureka.entry mc (toInstance s) = None ->
  (Eureka.mock_HeartBeatInstance (toInstance s) mc).1 = Some "Instance not registered" /\
  Register s mc = (None, mc) /\
  Nat.iter n (fun m => (Register s m).2) mc = mc.
Proof.
  intros Hname Hhost.
  assert (Hreg : Register s mc = (None, mc)).
  { rewrite client_Register_known_name by done.
    unfold Eureka.mock_HeartBeatInstance. by rewrite Hhost. }
  split; [unfold Eureka.mock_HeartBeatInstance; by rewrite Hhost|].
  split; [done|].
  induction n as [|n IH]; simpl; [done|]. by rewrite IH, Hreg.
Qed.

(** X5.  A renewal changes nothing but one counter: when the name resolves
    and the host has an entry, [Register] returns nil, keeps the instances
    of the registry (so [GetEntries] answers as before for every name) and
    adds one to the heartbeats of the entry of the host only. *)
Theorem client_Register_renewal_counts_one s mc idx e :
  Eureka.instances mc (Eureka.Name s) <> [] ->
  Eureka.entry mc (toInstance s) = Some (idx, e) ->
  (Register s mc).1 = None /\
  Eureka.instance <$> Eureka.registry (Register s mc).2 =
    Eureka.instance <$> Eureka.registry mc /\
  (forall name, (Eureka.client_GetEntries name (Register s mc).2).1 =
                (Eureka.client_GetEntries name mc).1) /\
  Eureka.heartbeats <$> Eureka.registry (Register s mc).2 =
    <[ idx := Go.wrap_int (Eureka.heartbeats e + 1) ]>
      (Eureka.heartbeats <$> Eureka.registry mc).
Proof.
  intros Hname Hentry. rewrite client_Register_known_name by done. simpl.
  split; [done|].
  pose proof (mock_HeartBeatInstance_instances (toInstance s) mc) as Hinst.
  split; [done|]. split.
  - intros name. unfold Eureka.client_GetEntries. simpl. unfold Eureka.mock_GetApp.
    rewrite !instances_of_registry, Hinst.
    by destruct (filter _ _).
  - unfold Eureka.mock_HeartBeatInstance. rewrite Hentry. simpl.
    by rewrite list_fmap_insert.
Qed.

(** X6.  After the first [Register] of a service whose name and host the
    registry does not know, [GetEntries] for its name returns the one
    address of the service, host and port joined by a colon. *)
Theorem client_GetEntries_after_Register s mc :
  Eureka.instances mc (Eureka.Name s) = [] ->
  Eureka.entry mc (toInstance s) = None ->
  (Eureka.client_GetEntries (Eureka.Name s) (Register s mc).2).1 =
    inl [service_entry s].
Proof.
  intros Hname Hhost.
  rewrite client_Register_unknown_name by done.
  unfold Eureka.mock_RegisterInstance. rewrite Hhost. simpl.
  unfold Eureka.client_GetEntries. simpl. unfold Eureka.mock_GetApp.
  assert (Hone : Eureka.instances
            {| Eureka.registry := Eureka.registry mc ++
                 [{| Eureka.instance := toInstance s; Eureka.heartbeats := 0 |}] |}
            (Eureka.Name s) = [toInstance s]).
  { rewrite instances_of_registry in *. simpl.
    rewrite fmap_app, filter_app, Hname. simpl.
    rewrite filter_cons, decide_True; [done|].
    apply serviceToInstance_names. }
  rewrite Hone. simpl. unfold Eureka.appToEntries, service_entry. simpl.
  destruct (serviceToInstance_names seconds_int32 json_Marshal s) as (_ & -> & ->).
  done.
Qed.

(** X7.  [GetEntries] never answers with an empty list: for a name
    without instances it returns the error "App not registered", otherwise
    one address per instance of the name; in both cases the registry is
    left as it is. *)
Theorem client_GetEntries_error_or_nonempty mc name :
  (Eureka.client_GetEntries name mc).2 = mc /\
  match (Eureka.client_GetEntries name mc).1 with
  | inr err => err = "App not registered" /\ Eureka.instances mc name = []
  | inl es => es <> [] /\ length es = length (Eureka.instances mc name)
  end.
Proof.
  unfold Eureka.client_GetEntries. simpl. unfold Eureka.mock_GetApp.
  destruct (Eureka.instances mc name) as [|i is'] eqn:Hi; simpl; [done|].
  split; [done|]. split; [done|].
  unfold Eureka.appToEntries. simpl. by rewrite length_map.
Qed.

End MockRegistryFacts.

(** ** The watcher and the options of the client *)

(** X8.  [WatchEntries] sends one list for every update it receives before
    [done] is closed, in order, and nothing for what arrives after. *)
Theorem client_WatchEntries_stops_at_done (us : list Fargo.AppUpdate)
    (rest : list Eureka.watch_case) :
  Eureka.client_WatchEntries ((Eureka.CaseUpdate <$> us) ++ Eureka.CaseDone :: rest) =
    Eureka.forwarded <$> us /\
  length (Eureka.client_WatchEntries
            ((Eureka.CaseUpdate <$> us) ++ Eureka.CaseDone :: rest)) = length us.
Proof.
  rewrite client_WatchEntries_updates. simpl. rewrite app_nil_r.
  split; [done|]. by rewrite length_fmap.
Qed.

Section OptionFacts.

Context {HttpClient_t : Type}.

Implicit Types (ks : list (EurekaOptions.option_kind HttpClient_t)).

Lemma NewClient_config_snoc (cfg : EurekaOptions.clientConfig HttpClient_t) ks k :
  foldl (fun config opt => opt config) cfg
        (EurekaOptions.to_Option _ <$> (ks ++ [k])) =
  EurekaOptions.to_Option _ k
    (foldl (fun config opt => opt config) cfg (EurekaOptions.to_Option _ <$> ks)).
Proof. by rewrite fmap_app, foldl_app. Qed.

Lemma NewClient_config_spec ks :
  let config :=
    foldl (fun config opt => opt config)
          {| EurekaOptions.httpClient := None;
             EurekaOptions.pollInterval := EurekaOptions.defaultPollInterval;
             EurekaOptions.logger := None |}
          (EurekaOptions.to_Option HttpClient_t <$> ks) in
  EurekaOptions.pollInterval _ config =
    default EurekaOptions.defaultPollInterval (EurekaOptions.last_interval _ ks) /\
  EurekaOptions.httpClient _ config =
    default None (EurekaOptions.last_client _ ks).
Proof.
  induction ks as [|k ks IH] using rev_ind; [done|].
  simpl in *. rewrite NewClient_config_snoc.
  unfold EurekaOptions.last_interval, EurekaOptions.last_client in *.
  rewrite !omap_app. destruct IH as [IHp IHc].
  destruct k as [c|d]; simpl; rewrite ?app_nil_r, ?last_snoc; simpl; auto.
Qed.

(** X9.  Among the options of [NewClient] the last of a kind wins: the
    connection polls at the interval of the last [PollInterval], or every
    30 seconds when there is none, whatever [HttpClient] options are given;
    the package's HTTP client is replaced by that of the last [HttpClient]
    option unless that one is nil or there is none. *)
Theorem NewClient_last_option_wins (global : option HttpClient_t) ks :
  EurekaOptions.conn_PollInterval _
    (EurekaOptions.NewClient _ global (EurekaOptions.to_Option _ <$> ks)) =
    default EurekaOptions.defaultPollInterval (EurekaOptions.last_interval _ ks) /\
  EurekaOptions.fargo_HttpClient _
    (EurekaOptions.NewClient _ global (EurekaOptions.to_Option _ <$> ks)) =
    match EurekaOptions.last_client _ ks with
    | Some (Some client) => Some client
    | _ => global
    end.
Proof.
  unfold EurekaOptions.NewClient. simpl.
  destruct (NewClient_config_spec ks) as [-> ->].
  split; [done|]. by destruct (EurekaOptions.last_client _ ks) as [[c|]|].
Qed.

End OptionFacts.

(** ** Sequences of registrar calls *)

Section RegistrarRuns.

Context {K : Type} `{!Eureka.Client K}.

Implicit Types (r : Eureka.registrar (K := K)) (calls : list registrar_call).

Lemma registrar_call_logs_one r (c : registrar_call) :
  let r' := match c with
            | DoRegister => (Eureka.registrar_Register r).2
            | DoDeregister => (Eureka.registrar_Deregister r).2
            end in
  let call := client_call c (Eureka.r_service r) (Eureka.r_client r) in
  Eureka.r_service r' = Eureka.r_service r /\
  Eureka.r_client r' = call.2 /\
  Log.context (Eureka.r_logger r') = Log.context (Eureka.r_logger r) /\
  Log.records (Eureka.r_logger r') =
    Log.records (Eureka.r_logger r) ++
    [Log.context (Eureka.r_logger r) ++ call_keyvals c call.1].
Proof.
  destruct c; simpl; unfold Eureka.registrar_Register, Eureka.registrar_Deregister.
  - by destruct (Eureka.Client_Register _ _) as [[err|] k].
  - by destruct (Eureka.Client_Deregister _ _) as [[err|] k].
Qed.

(** X10.  Along any sequence of [Register] and [Deregister] calls, with
    any client, the registrar keeps its service and the context of its
    logger, and never alters a record already written.  It makes one
    client call per call, each on the client as the call before left it,
    and writes exactly one record per call, in the order of the calls: the
    error that client call returned, or else the action of the call. *)
Theorem registrar_run_one_record_per_call calls r :
  let results := client_calls (Eureka.r_service r) calls (Eureka.r_client r) in
  Eureka.r_service (registrar_run calls r) = Eureka.r_service r /\
  Eureka.r_client (registrar_run calls r) = results.2 /\
  Log.context (Eureka.r_logger (registrar_run calls r)) =
    Log.context (Eureka.r_logger r) /\
  Log.records (Eureka.r_logger (registrar_run calls r)) =
    Log.records (Eureka.r_logger r) ++
    ((fun call => Log.context (Eureka.r_logger r) ++ call_keyvals call.1 call.2)
       <$> results.1) /\
  length results.1 = length calls.
Proof.
  unfold registrar_run. revert r.
  induction calls as [|c calls IH]; intros r; simpl.
  - by rewrite app_nil_r.
  - destruct (registrar_call_logs_one r c) as (Hs & Hk & Hc & Hrec).
    simpl in Hs, Hk, Hc, Hrec.
    match goal with |- context [foldl ?f ?r1 calls] => specialize (IH r1) end.
    simpl in IH. destruct IH as (IHs & IHk & IHc & IHrec & IHlen).
    rewrite Hs, Hk in IHk, IHrec, IHlen. rewrite Hc, Hrec in IHrec.
    destruct (client_call c (Eureka.r_service r) (Eureka.r_client r))
      as [res k] eqn:Hcall. simpl in *.
    destruct (client_calls (Eureka.r_service r) calls k) as [results k'] eqn:Hcalls.
    simpl in *.
    split; [congruence|]. split; [done|]. split; [congruence|].
    split; [|by rewrite IHlen].
    rewrite IHrec, <- app_assoc. done.
Qed.

End RegistrarRuns.

Section RegistrarOnMock.

Variable seconds_int32 : Z -> Z.
Variable json_Marshal : gmap string string -> string + Go.error.

Local Abbreviation toInstance := (Eureka.serviceToInstance seconds_int32 json_Marshal).
Local Abbreviation on_mock := (Eureka.client_Client seconds_int32 json_Marshal
                                 (C := Eureka.mockConn)).

(** X11.  Registrar, client and registry together: for a service the
    registry does not know, [Register] followed by [Deregister] leaves the
    registry as it was and logs the two actions, in that order. *)
Theorem registrar_round_trip_on_mock (s : Eureka.Service) (mc : Eureka.mockConn)
    (logger : Log.Logger) :
  Eureka.instances mc (Eureka.Name s) = [] ->
  Eureka.entry mc (toInstance s) = None ->
  let r := Eureka.NewRegistrar s mc logger in
  let r' := registrar_run (H := on_mock) [DoRegister; DoDeregister] r in
  Eureka.r_client r' = mc /\
  Log.records (Eureka.r_logger r') =
    Log.records logger ++
    [Log.context logger ++ [Log.Str "action"; Log.Str "register"];
     Log.context logger ++ [Log.Str "action"; Log.Str "deregister"]].
Proof.
  intros Hname Hhost r r'.
  destruct (client_Register_fresh_then_Deregister seconds_int32 json_Marshal
              s mc Hname Hhost) as [Hreg Hdereg].
  subst r' r. unfold registrar_run. simpl.
  unfold Eureka.registrar_Register. simpl.
  destruct (Eureka.client_Register seconds_int32 json_Marshal s mc)
    as [res mc1] eqn:Hr. simpl in Hreg, Hdereg. subst res. simpl.
  unfold Eureka.registrar_Deregister. simpl. rewrite Hdereg. simpl.
  split; [done|]. by rewrite <- app_assoc.
Qed.

End RegistrarOnMock.

(** ** The life of a subscriber *)

Section SubscriberRuns.

Context {Endpoint Closer Cache : Type} `{!Cache.Ops Endpoint Closer Cache}.

Implicit Types (w : Eureka.world (Cache := Cache)) (e : Eureka.event)
  (sched : list Eureka.event).

Lemma run_CallStop_stopped (n : nat) w :
  Eureka.quitc (Eureka.sub w) = None ->
  Eureka.run (replicate n Eureka.CallStop) w = Go.Done w.
Proof.
  intros Hq. induction n as [|n IH]; simpl; [done|].
  by rewrite subscriber_Stop_stopped.
Qed.

(** X12.  [Stop] on a subscriber in any state it can reach never panics.
    When [s.quitc] holds a channel, that channel is open and [Stop] closes
    it, so that a receive from it can proceed from then on; no other
    channel is touched, and a stopped subscriber keeps its channels as
    they are.  [Stop] sets [s.quitc] to nil without touching the cache, the
    loop or the watcher, and any number of further [Stop] calls leave the
    world that the first one made. *)
Theorem subscriber_Stop_any_number_of_times w (n : nat) :
  Eureka.reachable w ->
  exists w1,
    Eureka.run (replicate (S n) Eureka.CallStop) w = Go.Done w1 /\
    Eureka.subscriber_Stop w = Go.Done w1 /\
    Eureka.quitc (Eureka.sub w1) = None /\
    match Eureka.quitc (Eureka.sub w) with
    | Some q =>
        Go.recv_ready (Eureka.heap w) (Some q) = false /\
        Go.recv_ready (Eureka.heap w1) (Some q) = true /\
        Go.made (Eureka.heap w1) = Go.made (Eureka.heap w) /\
        Go.closed (Eureka.heap w1) = {[ q ]} ∪ Go.closed (Eureka.heap w)
    | None => Eureka.heap w1 = Eureka.heap w
    end /\
    Eureka.cache (Eureka.sub w1) = Eureka.cache (Eureka.sub w) /\
    Eureka.loop w1 = Eureka.loop w /\
    Eureka.watch w1 = Eureka.watch w.
Proof.
  intros Hreach.
  destruct (subscriber_Stop_idempotent w Hreach) as (w1 & Hstop & Hq & _).
  pose proof (reachable_quitc_open w Hreach) as Hopen.
  exists w1. simpl. rewrite Hstop. simpl.
  split; [by apply run_CallStop_stopped|]. split; [done|]. split; [done|].
  revert Hstop. unfold Eureka.subscriber_Stop.
  destruct (Eureka.quitc (Eureka.sub w)) as [q|] eqn:Hquitc; simpl.
  - rewrite (Hopen q Hquitc). simpl. intros [= <-]. simpl.
    split; [|done]. split; [done|]. split; [|done].
    unfold Go.is_closed. simpl. apply bool_decide_eq_true.
    apply elem_of_union. left. by apply elem_of_singleton.
  - by intros [= <-].
Qed.

(** X13.  The orderly shutdown: when the loop waits in its select and the
    watcher listens, both on the channel of [s.quitc], then after [Stop]
    the loop and the watcher can take their quit cases and both return;
    the cache keeps what it held. *)
Theorem subscriber_Stop_orderly_shutdown w q :
  Eureka.reachable w ->
  Eureka.quitc (Eureka.sub w) = Some q ->
  Eureka.loop w = Eureka.LoopWait (Some q) ->
  Eureka.watch w = Eureka.Watching (Some q) ->
  exists w',
    Eureka.run [Eureka.CallStop; Eureka.LoopQuit; Eureka.WatchQuit] w = Go.Done w' /\
    Eureka.loop w' = Eureka.LoopReturned /\
    Eureka.watch w' = Eureka.WatchReturned /\
    Eureka.cache (Eureka.sub w') = Eureka.cache (Eureka.sub w).
Proof.
  intros Hreach Hq Hloop Hwatch.
  pose proof (reachable_quitc_open w Hreach q Hq) as Hopen.
  simpl. unfold Eureka.subscriber_Stop. rewrite Hq. simpl. rewrite Hopen. simpl.
  rewrite Hloop. simpl.
  assert (Hclosed : Go.is_closed
            {| Go.made := Go.made (Eureka.heap w);
               Go.closed := {[q]} ∪ Go.closed (Eureka.heap w) |} q = true).
  { unfold Go.is_closed. simpl. apply bool_decide_eq_true_2.
    apply elem_of_union. left. by apply elem_of_singleton. }
  rewrite Hclosed. simpl. rewrite Hwatch. simpl. rewrite Hclosed. simpl.
  eexists. split; [done|]. done.
Qed.

(** X14.  A late update crashes the program: when the loop waits in its
    select and a watcher listens, and after [Stop] the loop takes its quit
    case first, its deferred [close(entries)] has run; an update that the
    watcher then receives before it sees [done] makes it send on the closed
    channel, and the program panics. *)
Theorem subscriber_update_after_Stop_panics w q d (u : Fargo.AppUpdate) sched :
  Eureka.reachable w ->
  Eureka.quitc (Eureka.sub w) = Some q ->
  Eureka.loop w = Eureka.LoopWait (Some q) ->
  Eureka.watch w = Eureka.Watching d ->
  Eureka.run ([Eureka.CallStop; Eureka.LoopQuit; Eureka.Deliver u] ++ sched) w =
    Go.Panic "send on closed channel".
Proof.
  intros Hreach Hq Hloop Hwatch.
  pose proof (reachable_quitc_open w Hreach q Hq) as Hopen.
  simpl. unfold Eureka.subscriber_Stop. rewrite Hq. simpl. rewrite Hopen. simpl.
  rewrite Hloop. simpl.
  assert (Hclosed : Go.is_closed
            {| Go.made := Go.made (Eureka.heap w);
               Go.closed := {[q]} ∪ Go.closed (Eureka.heap w) |} q = true).
  { unfold Go.is_closed. simpl. apply bool_decide_eq_true_2.
    apply elem_of_union. left. by apply elem_of_singleton. }
  rewrite Hclosed. simpl. by rewrite Hwatch.
Qed.

Lemma step_cache e w w' :
  Eureka.step e w = Some (Go.Done w') ->
  Eureka.cache (Eureka.sub w') = Eureka.cache (Eureka.sub w) \/
  exists u, e = Eureka.Deliver u /\
    Eureka.cache (Eureka.sub w') =
      Cache.Update (Eureka.forwarded u) (Eureka.cache (Eureka.sub w)).
Proof.
  destruct (is_Deliver e) eqn:He.
  - destruct e; try done. simpl.
    destruct (Eureka.watch w); try done.
    destruct (Eureka.loop w); try done. intros [= <-]. right. by exists u.
  - intros Hstep. left. by apply (step_keeps_cache e).
Qed.

(** X15.  The cache changes only by the updates of the backend, applied in
    the order of their arrival and each at most once: after any schedule it
    is the cache of the start updated with the forwarded lists of some of
    the delivered updates, in order. *)
Theorem subscriber_cache_follows_deliveries sched w w' :
  Eureka.run sched w = Go.Done w' ->
  exists us,
    us `sublist_of` deliveries sched /\
    Eureka.cache (Eureka.sub w') =
      foldl (fun c u => Cache.Update (Eureka.forwarded u) c)
            (Eureka.cache (Eureka.sub w)) us.
Proof.
  revert w. induction sched as [|e sched IH]; intros w; simpl.
  - intros [= <-]. exists []. split; [constructor | done].
  - destruct (Eureka.step e w) as [[w1|msg]|] eqn:Hstep; simpl.
    + intros Hrun. destruct (IH w1 Hrun) as (us & Hsub & Hcache).
      destruct (step_cache e w w1 Hstep) as [Hsame | (u & -> & Hupd)].
      * exists us. rewrite Hcache, Hsame. split; [|done].
        unfold deliveries in *. simpl.
        destruct e; simpl; try done. by apply sublist_cons.
      * exists (u :: us). simpl. rewrite Hcache, Hupd. split; [|done].
        unfold deliveries in *. simpl. by apply sublist_skip.
    + done.
    + intros Hrun. destruct (IH w Hrun) as (us & Hsub & Hcache).
      exists us. split; [|done]. unfold deliveries in *. simpl.
      destruct e; simpl; try done. by apply sublist_cons.
Qed.

Lemma reachable_start_no_watcher w :
  Eureka.reachable w ->
  Eureka.loop w = Eureka.LoopStart -> Eureka.watch w = Eureka.WatchNone.
Proof.
  induction 1 as [name factory logger | w e w' Hreach IH Hstep]; [done|].
  destruct e; simpl in Hstep.
  - destruct (Eureka.loop w); try done; injection Hstep as <-; done.
  - destruct (Eureka.loop w); try done.
    destruct (Go.recv_ready _ _); [|done]. injection Hstep as <-. done.
  - destruct (Eureka.watch w); try done.
    destruct (Eureka.loop w); try done; injection Hstep as <-; done.
  - destruct (Eureka.watch w) eqn:Hw; try done.
    destruct (Go.recv_ready _ _); [|done]. injection Hstep as <-. simpl.
    intros Hl. specialize (IH Hl). congruence.
  - revert Hstep. unfold Eureka.subscriber_Stop.
    destruct (Eureka.quitc (Eureka.sub w)) as [q|]; simpl.
    + destruct (Go.is_closed _ _); simpl; [done|]. by intros [= <-].
    + by intros [= <-].
Qed.

Lemma step_stays_stopped e w w' :
  (Eureka.loop w = Eureka.LoopStart -> Eureka.watch w = Eureka.WatchNone) ->
  Eureka.step e w = Some (Go.Done w') ->
  (Eureka.quitc (Eureka.sub w) = None -> Eureka.quitc (Eureka.sub w') = None) /\
  (Eureka.loop w = Eureka.LoopReturned -> Eureka.loop w' = Eureka.LoopReturned) /\
  (Eureka.watch w = Eureka.WatchReturned -> Eureka.watch w' = Eureka.WatchReturned).
Proof.
  intros Hstart. destruct e; simpl.
  - destruct (Eureka.loop w) eqn:Hl; try done; intros [= <-]; simpl.
    + split; [done|]. split; [done|]. intros Hw. rewrite Hstart in Hw; done.
    + done.
  - destruct (Eureka.loop w) eqn:Hl; try done.
    destruct (Go.recv_ready _ _); [|done]. intros [= <-]. done.
  - destruct (Eureka.watch w) eqn:Hw; try done.
    destruct (Eureka.loop w) eqn:Hl; try done. intros [= <-]. done.
  - destruct (Eureka.watch w) eqn:Hw; try done.
    destruct (Go.recv_ready _ _); [|done]. intros [= <-]. done.
  - unfold Eureka.subscriber_Stop.
    destruct (Eureka.quitc (Eureka.sub w)) as [q|] eqn:Hq; simpl.
    + destruct (Go.is_closed _ _); simpl; [done|]. by intros [= <-].
    + by intros [= <-].
Qed.

(** X16.  A subscriber cannot be started again: from any state it can
    reach, along every schedule that does not panic, a nil [s.quitc] stays
    nil, a loop that has returned and a watcher that has returned stay
    so. *)
Theorem subscriber_stays_stopped sched w w' :
  Eureka.reachable w ->
  Eureka.run sched w = Go.Done w' ->
  (Eureka.quitc (Eureka.sub w) = None -> Eureka.quitc (Eureka.sub w') = None) /\
  (Eureka.loop w = Eureka.LoopReturned -> Eureka.loop w' = Eureka.LoopReturned) /\
  (Eureka.watch w = Eureka.WatchReturned -> Eureka.watch w' = Eureka.WatchReturned).
Proof.
  revert w. induction sched as [|e sched IH]; intros w Hreach; simpl.
  - by intros [= <-].
  - destruct (Eureka.step e w) as [[w1|msg]|] eqn:Hstep; simpl;
      [|done|by apply IH].
    intros Hrun.
    destruct (IH w1 (Eureka.reach_step w e w1 Hreach Hstep) Hrun) as (Hq & Hl & Hw).
    destruct (step_stays_stopped e w w1 (reachable_start_no_watcher w Hreach) Hstep)
      as (Hq1 & Hl1 & Hw1).
    repeat split; auto.
Qed.

End SubscriberRuns.

(** ** The life of a periodic registrar *)

Section PeriodicRuns.

Context {R : Type} `{!Sd.Registrar R}.

Implicit Types (w : Sd.world (R := R)) (e : Sd.event).

(** X17.  [Deregister] never closes a closed channel: in every state the
    registrar can reach it either completes, when the registrar is running,
    or panics on the nil channel, when it is stopped. *)
Theorem periodic_Deregister_never_double_closes w :
  Sd.reachable w ->
  match Sd.periodic_Deregister w with
  | Go.Done w' => Running w /\ Sd.quitc (Sd.p w') = None
  | Go.Panic msg => Sd.quitc (Sd.p w) = None /\ msg = "close of nil channel"
  end.
Proof.
  intros Hreach. unfold Sd.periodic_Deregister, Running.
  destruct (Sd.quitc (Sd.p w)) as [q|] eqn:Hq; simpl; [|done].
  destruct (reachable_quitc_fresh w Hreach) as [_ Hfresh].
  pose proof (Hfresh q Hq) as [_ Hopen].
  unfold Go.is_closed. rewrite bool_decide_eq_false_2 by done. simpl.
  split; [by eexists | done].
Qed.

(** *** Every running loop renews once per interval *)

Lemma after_interval_add (a b : nat) w :
  after_interval a (after_interval b w) = after_interval (a + b) w.
Proof.
  unfold after_interval. simpl. f_equal.
  - by rewrite Nat.iter_add.
  - rewrite <- app_assoc, <- replicate_add. f_equal. f_equal. lia.
Qed.

Lemma after_interval_zero w : after_interval 0 w = w.
Proof.
  destruct w as [[r i q] h l out]. unfold after_interval. simpl.
  by rewrite app_nil_r.
Qed.

Lemma run_loop_at_select (i : nat) (rest : list Sd.event) w :
  Sd.loops w !! i = Some Sd.LoopSelect ->
  Sd.run (Sd.Enter i :: Sd.Tick i :: rest) w = Sd.run rest (after_interval 1 w).
Proof.
  intros Hi. simpl. rewrite Hi. simpl.
  rewrite list_lookup_insert_eq by (by eapply lookup_lt_Some). simpl.
  f_equal. unfold Sd.set_loop, Sd.loop_tick, after_interval. simpl.
  rewrite list_insert_insert_eq, list_insert_id by done. done.
Qed.

Lemma run_loop_returned (i : nat) (rest : list Sd.event) w :
  Sd.loops w !! i = Some Sd.LoopReturned ->
  Sd.run (Sd.Enter i :: Sd.Tick i :: rest) w = Sd.run rest w.
Proof. intros Hi. simpl. by rewrite Hi. Qed.

Lemma run_loops_from (l2 l1 : list Sd.loop_pc) w :
  Sd.loops w = l1 ++ l2 ->
  Forall (fun l => l = Sd.LoopSelect \/ l = Sd.LoopReturned) l2 ->
  Sd.run (flat_map (fun i => [Sd.Enter i; Sd.Tick i]) (seq (length l1) (length l2))) w =
  Go.Done (after_interval (length (filter Sd.running l2)) w).
Proof.
  revert l1 w. induction l2 as [|x l2 IH]; intros l1 w Hl Hidle.
  - simpl. by rewrite after_interval_zero.
  - apply Forall_cons in Hidle as [Hx Hidle].
    assert (Hi : Sd.loops w !! length l1 = Some x).
    { rewrite Hl. by rewrite list_lookup_middle. }
    cbn [length seq flat_map app].
    destruct Hx as [-> | ->].
    + rewrite run_loop_at_select by done.
      replace (S (length l1)) with (length (l1 ++ [Sd.LoopSelect]))
        by (rewrite length_app; simpl; lia).
      rewrite (IH (l1 ++ [Sd.LoopSelect]) (after_interval 1 w));
        [|by simpl; rewrite Hl, <- app_assoc|done].
      rewrite after_interval_add, filter_cons_True by done.
      simpl. do 2 f_equal. lia.
    + rewrite run_loop_returned by done.
      replace (S (length l1)) with (length (l1 ++ [Sd.LoopReturned]))
        by (rewrite length_app; simpl; lia).
      rewrite (IH (l1 ++ [Sd.LoopReturned]) w);
        [|by rewrite Hl, <- app_assoc|done].
      by rewrite filter_cons_False by (by intros []).
Qed.

Lemma one_interval_idle w :
  loops_idle w ->
  Sd.one_interval w = Go.Done (after_interval (length (Sd.active_loops w)) w).
Proof.
  intros Hidle. unfold Sd.one_interval, Sd.active_loops.
  by apply (run_loops_from (Sd.loops w) []).
Qed.

(** X18.  The underlying [Register] is called once per interval by every
    loop goroutine that runs: in a world whose loops are at the top of
    their [for] or have returned, [n] intervals make as many calls, and
    print as many lines, as [n] times the number of running loops, and
    leave the loops where they were. *)
Theorem periodic_loops_renew_once_each (n : nat) w :
  loops_idle w ->
  Sd.intervals n w =
    Go.Done (after_interval (n * length (Sd.active_loops w)) w).
Proof.
  revert w. induction n as [|n IH]; intros w Hidle; simpl.
  - by rewrite after_interval_zero.
  - rewrite one_interval_idle by done. simpl.
    rewrite IH by done. rewrite after_interval_add. do 2 f_equal.
    unfold Sd.active_loops. simpl. lia.
Qed.

(** X19.  A heartbeat can follow the deregistration: a loop that waits in
    its select when [Deregister] closes the channel may still take the
    timer case.  It then calls the underlying [Register] after the
    underlying [Deregister], and when it comes back to its select it reads
    [p.quitc] as nil. *)
Theorem periodic_loop_may_register_after_Deregister w q (i : nat) :
  Sd.reachable w ->
  Sd.quitc (Sd.p w) = Some q ->
  Sd.loops w !! i = Some (Sd.LoopWait (Some q)) ->
  exists w1 w2,
    Sd.periodic_Deregister w = Go.Done w1 /\
    Sd.run [Sd.Tick i; Sd.Enter i] w1 = Go.Done w2 /\
    Sd.registrar (Sd.p w2) = Sd.Register (Sd.Deregister (Sd.registrar (Sd.p w))) /\
    Sd.loops w2 !! i = Some (Sd.LoopWait None).
Proof.
  intros Hreach Hq Hi.
  destruct (reachable_quitc_fresh w Hreach) as [_ Hfresh].
  pose proof (Hfresh q Hq) as [_ Hopen].
  unfold Sd.periodic_Deregister. rewrite Hq. simpl.
  unfold Go.is_closed. rewrite bool_decide_eq_false_2 by done. simpl.
  assert (Hlt : (i < length (Sd.loops w))%nat) by (by eapply lookup_lt_Some).
  eexists _, _. split; [reflexivity|]. simpl. rewrite Hi. simpl.
  rewrite list_lookup_insert_eq by done. simpl.
  split; [reflexivity|]. simpl. split; [done|].
  rewrite list_lookup_insert_eq; [done|]. by rewrite length_insert.
Qed.

(** *** A loop that reads [p.quitc] after [Deregister] has cleared it *)

Lemma periodic_loop_missed_step e w (i : nat) :
  is_loop_event e = true ->
  Sd.quitc (Sd.p w) = None ->
  Sd.loops w !! i = Some Sd.LoopSelect \/ Sd.loops w !! i = Some (Sd.LoopWait None) ->
  Sd.step e w = None \/
  exists w', Sd.step e w = Some (Go.Done w') /\
    Sd.quitc (Sd.p w') = None /\
    (Sd.loops w' !! i = Some Sd.LoopSelect \/
     Sd.loops w' !! i = Some (Sd.LoopWait None)).
Proof.
  intros He Hq Hi. destruct e as [j|j|j| |]; try done; simpl.
  - destruct (Sd.loops w !! j) as [[]|] eqn:Hj; try (by left). right.
    eexists. split; [done|]. simpl. split; [done|].
    destruct (decide (j = i)) as [->|Hne].
    + right. rewrite Hq. apply list_lookup_insert_eq. by eapply lookup_lt_Some.
    + by rewrite list_lookup_insert_ne.
  - destruct (Sd.loops w !! j) as [[| q' |]|] eqn:Hj; try (by left).
    destruct (Go.recv_ready (Sd.heap w) q') eqn:Hr; [|by left]. right.
    eexists. split; [done|]. simpl. split; [done|].
    destruct (decide (j = i)) as [->|Hne].
    + rewrite Hj in Hi. destruct Hi as [[=] | [= ->]]. done.
    + by rewrite list_lookup_insert_ne.
  - destruct (Sd.loops w !! j) as [[]|] eqn:Hj; try (by left). right.
    eexists. split; [done|]. simpl. split; [done|].
    destruct (decide (j = i)) as [->|Hne].
    + left. apply list_lookup_insert_eq. by eapply lookup_lt_Some.
    + by rewrite list_lookup_insert_ne.
Qed.

(** X20.  A loop that comes to its select after [Deregister] has set
    [p.quitc] to nil never returns: as long as the owner makes no further
    call, whatever the loops do, [p.quitc] stays nil and that loop is at
    its select or waits in it on the nil channel. *)
Theorem periodic_loop_after_Deregister_never_returns
    (sched : list Sd.event) w (i : nat) :
  forallb is_loop_event sched = true ->
  Sd.quitc (Sd.p w) = None ->
  Sd.loops w !! i = Some Sd.LoopSelect \/ Sd.loops w !! i = Some (Sd.LoopWait None) ->
  exists w',
    Sd.run sched w = Go.Done w' /\
    Sd.quitc (Sd.p w') = None /\
    (Sd.loops w' !! i = Some Sd.LoopSelect \/
     Sd.loops w' !! i = Some (Sd.LoopWait None)).
Proof.
  revert w. induction sched as [|e sched IH]; intros w Hsched Hq Hi; simpl.
  - eauto.
  - simpl in Hsched. apply andb_true_iff in Hsched as [He Hsched].
    destruct (periodic_loop_missed_step e w i He Hq Hi)
      as [-> | (w1 & -> & Hq1 & Hi1)]; simpl; eauto.
Qed.

End PeriodicRuns.

(** ** The static publisher, again *)

Section StaticMore.

Context {Endpoint : Type}.

Implicit Types (factory : Static.Factory Endpoint) (logger : Log.Logger)
  (instances : list string).

Lemma made_and_failed_lengths ctx factory instances :
  (length (Static.made_endpoints Endpoint factory instances) +
   length (Static.failure_records Endpoint ctx factory instances) =
   length instances)%nat.
Proof.
  unfold Static.made_endpoints, Static.failure_records.
  induction instances as [|i instances IH]; [done|].
  cbn in *. destruct (factory i); cbn; lia.
Qed.

Lemma made_endpoints_length factory instances :
  length (Static.made_endpoints Endpoint factory instances) =
  length (filter (fun i => accepts factory i = true) instances).
Proof.
  unfold Static.made_endpoints, accepts.
  induction instances as [|i instances IH]; [done|].
  rewrite filter_cons. cbn. destruct (factory i); cbn.
  - rewrite decide_True by done. cbn. by rewrite IH.
  - rewrite decide_False by done. exact IH.
Qed.

Lemma failure_records_length ctx factory instances :
  length (Static.failure_records Endpoint ctx factory instances) =
  length (filter (fun i => accepts factory i = false) instances).
Proof.
  unfold Static.failure_records, accepts.
  induction instances as [|i instances IH]; [done|].
  rewrite filter_cons. cbn. destruct (factory i); cbn.
  - rewrite decide_False by done. exact IH.
  - rewrite decide_True by done. cbn. by rewrite IH.
Qed.

Lemma elem_of_failure_records ctx factory instances (rec : Log.keyvals) :
  rec ∈ Static.failure_records Endpoint ctx factory instances <->
  exists i err, i ∈ instances /\ factory i = inr err /\
    rec = ctx ++ [Log.Str "instance"; Log.Str i; Log.Str "err"; Log.Err err].
Proof.
  unfold Static.failure_records. rewrite list_elem_of_omap. split.
  - intros (i & Hi & Hrec). destruct (factory i) as [e|err] eqn:Hf; [done|].
    injection Hrec as <-. eauto.
  - intros (i & err & Hi & Hf & ->). exists i. by rewrite Hf.
Qed.

(** X21.  Every instance is accounted for once: [NewPublisher] keeps the
    records the logger already held and adds, in the order of the
    instances, the record of every instance the factory rejects, with that
    instance and that error, and no other record.  So the endpoints are as
    many as the instances the factory accepts, the added records as many
    as those it rejects, and together as many as the instances.  No
    instance, not even a failing one, stops the construction. *)
Theorem NewPublisher_accounts_for_every_instance instances factory logger :
  let result := Static.NewPublisher Endpoint instances factory logger in
  let ctx := Log.context logger ++ [Log.Str "component"; Log.Str "Fixed Publisher"] in
  exists new,
    Log.records result.2 = Log.records logger ++ new /\
    new = Static.failure_records Endpoint ctx factory instances /\
    (forall rec, rec ∈ new <->
       exists i err, i ∈ instances /\ factory i = inr err /\
         rec = ctx ++ [Log.Str "instance"; Log.Str i; Log.Str "err"; Log.Err err]) /\
    length (Static.endpoints Endpoint result.1) =
      length (filter (fun i => accepts factory i = true) instances) /\
    length new = length (filter (fun i => accepts factory i = false) instances) /\
    (length (Static.endpoints Endpoint result.1) + length new = length instances)%nat.
Proof.
  intros result ctx. subst result ctx. unfold Static.NewPublisher.
  rewrite range_instances_spec. simpl.
  eexists. split; [reflexivity|]. split; [reflexivity|].
  split; [apply elem_of_failure_records|].
  split; [apply made_endpoints_length|].
  split; [apply failure_records_length|]. apply made_and_failed_lengths.
Qed.

(** X22.  [NewPublisher] keeps the order and the repetitions of the
    instances: the endpoints of a list put together from two lists are
    those of the first followed by those of the second; in particular no
    instance gives no endpoint and writes no record. *)
Theorem NewPublisher_endpoints_app (l1 l2 : list string) factory logger :
  Static.endpoints Endpoint (Static.NewPublisher Endpoint (l1 ++ l2) factory logger).1 =
    Static.endpoints Endpoint (Static.NewPublisher Endpoint l1 factory logger).1 ++
    Static.endpoints Endpoint (Static.NewPublisher Endpoint l2 factory logger).1 /\
  Static.endpoints Endpoint (Static.NewPublisher Endpoint [] factory logger).1 = [] /\
  Log.records (Static.NewPublisher Endpoint [] factory logger).2 = Log.records logger.
Proof.
  unfold Static.NewPublisher. rewrite !range_instances_spec. simpl.
  rewrite made_endpoints_app. split; [done|]. split; [done|].
  by rewrite app_nil_r.
Qed.

End StaticMore.

(** ** The string service behind its endpoint and proxy *)

(** X23.  Round trip through the endpoint domain: [Uppercase] of the proxy
    whose endpoint is the one [makeUppercaseEndpoint] makes for a service
    returns what [Uppercase] of that service returns, value, error and
    state, and never panics; the error of the service travels inside the
    response, the endpoint itself returning nil. *)
Theorem proxymw_Uppercase_round_trip {St : Type}
    (svc next : Stringsvc.StringService St) (s : string) (st : St) :
  Stringsvc.proxymw_Uppercase St
    {| Stringsvc.UppercaseEndpoint := Stringsvc.makeUppercaseEndpoint St svc;
       Stringsvc.next := next |} s st =
    Go.Done (Stringsvc.Uppercase St svc s st) /\
  exists response st',
    Stringsvc.makeUppercaseEndpoint St svc (Stringsvc.uppercaseRequest s) st =
      Go.Done ((response, None), st').
Proof.
  unfold Stringsvc.proxymw_Uppercase, Stringsvc.makeUppercaseEndpoint. simpl.
  destruct (Stringsvc.Uppercase St svc s st) as [[v err] st']. simpl.
  split; [done|]. eauto.
Qed.

(** ** Examples for the further properties *)

Lemma other_host_unique : hosts_unique other_host_registered.
Proof. unfold hosts_unique. apply (NoDup_singleton "a"). Defined.

Lemma other_host_resolves : Eureka.instances other_host_registered "name" <> [].
Proof. intros Hnil. discriminate Hnil. Defined.

Lemma watching_subscriber_reachable : Eureka.reachable watching_subscriber.
Proof.
  apply (Eureka.reach_step
           (Eureka.set_watch (Eureka.set_loop test_subscriber Eureka.LoopSelect)
              (Eureka.Watching (Some 0%nat)))
           Eureka.RunLoop).
  - apply (Eureka.reach_step test_subscriber Eureka.RunLoop).
    + apply Eureka.reach_new.
    + reflexivity.
  - reflexivity.
Defined.

Lemma client_Register_Deregister_round_trip_witness :
  let s := Eureka.testService "name" "address" 0 in
  Eureka.client_Deregister whole_seconds marshal_keys s
    (Eureka.client_Register whole_seconds marshal_keys s Eureka.newMockConn).2 =
  (None, Eureka.newMockConn).
Proof.
  intros s.
  exact (proj2 (client_Register_Deregister_round_trip whole_seconds marshal_keys
                  s Eureka.newMockConn eq_refl eq_refl)).
Defined.

Lemma client_Deregister_twice_fails_witness :
  Eureka.client_Deregister whole_seconds marshal_keys
    (Eureka.testService "name" "a" 123) Eureka.newMockConn =
  (Some "Instance not registered", Eureka.newMockConn).
Proof.
  exact (proj2 (client_Deregister_twice_fails whole_seconds marshal_keys
                  (Eureka.testService "name" "a" 123)
                  other_host_registered Eureka.newMockConn
                  other_host_unique eq_refl)).
Defined.

Lemma client_keeps_hosts_unique_witness :
  hosts_unique (Eureka.client_Register whole_seconds marshal_keys
                  (Eureka.testService "name" "a" 123) other_host_registered).2.
Proof.
  exact (proj1 (client_keeps_hosts_unique whole_seconds marshal_keys
                  (Eureka.testService "name" "a" 123) other_host_registered "name"
                  other_host_unique)).
Defined.

Lemma client_Register_never_adds_second_host_witness :
  Nat.iter 5
    (fun m => (Eureka.client_Register whole_seconds marshal_keys
                 (Eureka.testService "name" "b" 987) m).2)
    other_host_registered = other_host_registered.
Proof.
  exact (proj2 (proj2 (client_Register_never_adds_second_host
                         whole_seconds marshal_keys
                         (Eureka.testService "name" "b" 987) other_host_registered 5
                         other_host_resolves eq_refl))).
Defined.

Lemma client_Register_renewal_counts_one_witness :
  Eureka.heartbeats <$>
    Eureka.registry (Eureka.client_Register whole_seconds marshal_keys
                       (Eureka.testService "name" "a" 123) other_host_registered).2 =
  [1].
Proof.
  destruct (client_Register_renewal_counts_one whole_seconds marshal_keys
              (Eureka.testService "name" "a" 123) other_host_registered 0
              {| Eureka.instance :=
                   Eureka.serviceToInstance whole_seconds marshal_keys
                     (Eureka.testService "name" "a" 123);
                 Eureka.heartbeats := 0 |}
              other_host_resolves eq_refl) as (_ & _ & _ & Hbeats).
  rewrite Hbeats. reflexivity.
Defined.

Lemma client_GetEntries_after_Register_witness :
  let s := Eureka.testService "foo.bar.baz" "example.com" 1234 in
  (Eureka.client_GetEntries "foo.bar.baz"
     (Eureka.client_Register whole_seconds marshal_keys s Eureka.newMockConn).2).1 =
  inl ["example.com:1234"].
Proof.
  intros s.
  exact (client_GetEntries_after_Register whole_seconds marshal_keys
           s Eureka.newMockConn eq_refl eq_refl).
Defined.

Lemma registrar_round_trip_on_mock_witness :
  Eureka.r_client
    (registrar_run (H := Eureka.client_Client whole_seconds marshal_keys)
       [DoRegister; DoDeregister]
       (Eureka.NewRegistrar (Eureka.testService "name" "address" 0)
          Eureka.newMockConn Log.NewNopLogger)) = Eureka.newMockConn.
Proof.
  exact (proj1 (registrar_round_trip_on_mock whole_seconds marshal_keys
                  (Eureka.testService "name" "address" 0) Eureka.newMockConn
                  Log.NewNopLogger eq_refl eq_refl)).
Defined.

Lemma subscriber_Stop_any_number_of_times_witness :
  exists w1,
    Eureka.run (replicate 4 Eureka.CallStop) test_subscriber = Go.Done w1 /\
    Eureka.subscriber_Stop test_subscriber = Go.Done w1 /\
    Eureka.quitc (Eureka.sub w1) = None /\
    (Go.recv_ready (Eureka.heap test_subscriber) (Some 0%nat) = false /\
     Go.recv_ready (Eureka.heap w1) (Some 0%nat) = true /\
     Go.made (Eureka.heap w1) = Go.made (Eureka.heap test_subscriber) /\
     Go.closed (Eureka.heap w1) = {[ 0%nat ]} ∪ Go.closed (Eureka.heap test_subscriber)) /\
    Eureka.cache (Eureka.sub w1) = Eureka.cache (Eureka.sub test_subscriber) /\
    Eureka.loop w1 = Eureka.loop test_subscriber /\
    Eureka.watch w1 = Eureka.watch test_subscriber.
Proof.
  apply (subscriber_Stop_any_number_of_times test_subscriber 3).
  apply Eureka.reach_new.
Defined.

Lemma subscriber_Stop_orderly_shutdown_witness :
  exists w',
    Eureka.run [Eureka.CallStop; Eureka.LoopQuit; Eureka.WatchQuit]
      watching_subscriber = Go.Done w' /\
    Eureka.loop w' = Eureka.LoopReturned /\
    Eureka.watch w' = Eureka.WatchReturned /\
    Eureka.cache (Eureka.sub w') = Eureka.cache (Eureka.sub watching_subscriber).
Proof.
  apply (subscriber_Stop_orderly_shutdown watching_subscriber 0%nat).
  - apply watching_subscriber_reachable.
  - reflexivity.
  - reflexivity.
  - reflexivity.
Defined.

Lemma subscriber_update_after_Stop_panics_witness :
  Eureka.run ([Eureka.CallStop; Eureka.LoopQuit; Eureka.Deliver failed_update]
              ++ [Eureka.WatchQuit]) watching_subscriber =
  Go.Panic "send on closed channel".
Proof.
  apply (subscriber_update_after_Stop_panics watching_subscriber 0%nat (Some 0%nat)
           failed_update [Eureka.WatchQuit]).
  - apply watching_subscriber_reachable.
  - reflexivity.
  - reflexivity.
  - reflexivity.
Defined.

Lemma subscriber_cache_follows_deliveries_witness :
  let sched := [Eureka.RunLoop; Eureka.RunLoop;
                Eureka.Deliver failed_update; Eureka.RunLoop] in
  exists us,
    us `sublist_of` deliveries sched /\
    Eureka.cache (Eureka.sub
      (match Eureka.run sched test_subscriber with
       | Go.Done w' => w'
       | Go.Panic _ => test_subscriber
       end)) =
      foldl (fun c u => Cache.Update (Eureka.forwarded u) c)
            (Eureka.cache (Eureka.sub test_subscriber)) us.
Proof.
  intros sched.
  apply (subscriber_cache_follows_deliveries sched test_subscriber).
  reflexivity.
Defined.

Lemma stopped_subscriber_reachable : Eureka.reachable stopped_subscriber.
Proof.
  apply (Eureka.reach_step
           (Eureka.set_loop
              (Eureka.set_sub
                 {| Eureka.sub := Eureka.sub watching_subscriber;
                    Eureka.heap := Eureka.heap stopped_subscriber;
                    Eureka.loop := Eureka.loop watching_subscriber;
                    Eureka.watch := Eureka.watch watching_subscriber |}
                 (Eureka.sub stopped_subscriber))
              Eureka.LoopReturned)
           Eureka.WatchQuit).
  - apply (Eureka.reach_step
             (Eureka.set_sub
                {| Eureka.sub := Eureka.sub watching_subscriber;
                   Eureka.heap := Eureka.heap stopped_subscriber;
                   Eureka.loop := Eureka.loop watching_subscriber;
                   Eureka.watch := Eureka.watch watching_subscriber |}
                (Eureka.sub stopped_subscriber))
             Eureka.LoopQuit).
    + apply (Eureka.reach_step watching_subscriber Eureka.CallStop).
      * apply watching_subscriber_reachable.
      * reflexivity.
    + reflexivity.
  - reflexivity.
Defined.

Lemma subscriber_stays_stopped_witness :
  let sched := [Eureka.RunLoop; Eureka.Deliver failed_update; Eureka.CallStop;
                Eureka.LoopQuit; Eureka.WatchQuit; Eureka.RunLoop] in
  let w' := match Eureka.run sched stopped_subscriber with
            | Go.Done w' => w'
            | Go.Panic _ => test_subscriber
            end in
  Eureka.run sched stopped_subscriber = Go.Done w' /\
  Eureka.quitc (Eureka.sub w') = None /\
  Eureka.loop w' = Eureka.LoopReturned /\
  Eureka.watch w' = Eureka.WatchReturned.
Proof.
  intros sched w'.
  destruct (subscriber_stays_stopped sched stopped_subscriber w'
              stopped_subscriber_reachable eq_refl) as (Hquitc & Hloop & Hwatch).
  split; [reflexivity|].
  split; [apply Hquitc; reflexivity|].
  split; [apply Hloop; reflexivity|apply Hwatch; reflexivity].
Defined.

Lemma periodic_Deregister_never_double_closes_witness :
  match Sd.periodic_Deregister waiting_registrar with
  | Go.Done w' => Running waiting_registrar /\ Sd.quitc (Sd.p w') = None
  | Go.Panic msg =>
      Sd.quitc (Sd.p waiting_registrar) = None /\ msg = "close of nil channel"
  end.
Proof.
  apply (periodic_Deregister_never_double_closes waiting_registrar).
  apply waiting_registrar_reachable.
Defined.

Lemma restarted_registrar_idle : loops_idle restarted_registrar.
Proof.
  unfold loops_idle.
  apply Forall_cons. split; [by left|].
  apply Forall_cons. split; [by left|].
  apply Forall_nil_2.
Defined.

Lemma periodic_loops_renew_once_each_witness :
  Sd.intervals 3 restarted_registrar =
  Go.Done (after_interval (3 * length (Sd.active_loops restarted_registrar))
             restarted_registrar).
Proof.
  apply (periodic_loops_renew_once_each 3 restarted_registrar).
  apply restarted_registrar_idle.
Defined.

Lemma periodic_loop_may_register_after_Deregister_witness :
  exists w1 w2,
    Sd.periodic_Deregister waiting_registrar = Go.Done w1 /\
    Sd.run [Sd.Tick 0; Sd.Enter 0] w1 = Go.Done w2 /\
    Sd.registrar (Sd.p w2) =
      Sd.Register (Sd.Deregister (Sd.registrar (Sd.p waiting_registrar))) /\
    Sd.loops w2 !! 0%nat = Some (Sd.LoopWait None).
Proof.
  apply (periodic_loop_may_register_after_Deregister waiting_registrar 0%nat 0%nat).
  - apply waiting_registrar_reachable.
  - reflexivity.
  - reflexivity.
Defined.

Lemma periodic_loop_after_Deregister_never_returns_witness :
  let sched := [Sd.Enter 0; Sd.Tick 0; Sd.Quit 0; Sd.Enter 0; Sd.Quit 0] in
  exists w',
    Sd.run sched deregistered_early = Go.Done w' /\
    Sd.quitc (Sd.p w') = None /\
    (Sd.loops w' !! 0%nat = Some Sd.LoopSelect \/
     Sd.loops w' !! 0%nat = Some (Sd.LoopWait None)).
Proof.
  intros sched.
  apply (periodic_loop_after_Deregister_never_returns sched deregistered_early 0%nat).
  - reflexivity.
  - reflexivity.
  - left. reflexivity.
Defined.
